(** * MTFlista: the generic table of [src/mtftable.c]

  A shallow embedding of the table that [mtftable.c] builds on top of a
  doubly linked list, and the properties its specification states.

  Layout of the development:
  - pointers and the entry struct;
  - [Run], the small monad the C statements are run in;
  - [Table], the list the table delegates to and the functions of
    [mtftable.c], one definition each;
  - [Instrumented], callbacks that record each call in a trace;
  - [Client], sequences of inserts and removes on one table;
  - lemmas on the loops, then the properties of the specification;
  - the loops under arbitrary callbacks, how the operations compose,
    whole lifetimes of a table, and operations that commute. *)

From Stdlib Require Import ZArith List Bool Arith Lia Sorted Permutation.
Import ListNotations.

Set Implicit Arguments.

(* ------------------------------------------------------------------ *)
(** ** Pointers and entries *)

(** A [void] pointer is an address.  The table never dereferences a key or a
  value; it only hands them to the callbacks. *)
Definition ptr : Type := Z.

Definition NULL : ptr := 0%Z.

(** [struct table_entry], a key handle and a value handle.  The entry is
  heap allocated in [table_insert]; the embedding stores the pair. *)
Record table_entry : Type := mk_entry { key : ptr; value : ptr }.

(* ------------------------------------------------------------------ *)
(** ** Outcomes of running a C function *)

(** A run either completes with a result and a final world, or hits
  behaviour C leaves undefined (a freed table, a position past the
  end), or exhausts the iteration budget given to a [while] loop. *)
Inductive outcome (W A : Type) : Type :=
| Done (a : A) (w : W)
| Undefined
| OutOfFuel.

Arguments Undefined {W A}.
Arguments OutOfFuel {W A}.

Module Run.

Definition M (W A : Type) : Type := W -> outcome W A.

Definition ret {W A} (a : A) : M W A := fun w => Done a w.

Definition bind {W A B} (c : M W A) (k : A -> M W B) : M W B :=
  fun w =>
    match c w with
    | Done a w' => k a w'
    | Undefined => Undefined
    | OutOfFuel => OutOfFuel
    end.

Definition undefined {W A} : M W A := fun _ => Undefined.

Definition out_of_fuel {W A} : M W A := fun _ => OutOfFuel.

End Run.

Import Run.

Declare Scope run_scope.
Delimit Scope run_scope with run.
Notation "x <- c ;; k" := (bind c (fun x => k))
(at level 61, c at next level, right associativity) : run_scope.
Notation "c ;; k" := (bind c (fun _ => k))
(at level 61, right associativity) : run_scope.
Local Open Scope run_scope.

(* ------------------------------------------------------------------ *)
(** ** The table over an arbitrary caller environment *)

Section Table.

(** Everything outside the table that a call can read or write: the
    caller's memory and the allocator. *)
Variable E : Type.

(** libc [free] applied to the storage of an entry struct, as the C
    library provides it. *)
Variable free : table_entry -> E -> E.

(** The C type [compare_function]: an [int] function of two keys. *)
Definition compare_function : Type := ptr -> ptr -> E -> Z * E.

(** The C type [free_function]: a pointer to a [void] function of one
    handle.  A [NULL] function pointer is [None]. *)
Definition free_function : Type := ptr -> E -> E.

(** The C type [inspect_callback_pair]: a pointer to a [void] function
    of a key and a value. *)
Definition inspect_callback_pair : Type := ptr -> ptr -> E -> E.

(** *** The list collaborator *)

(** Modelled from the spec: [dlist.h] and its implementation are not
    among the sources.  The specification gives the contract of the
    ordered-sequence collaborator: empty construction with an element
    destructor, head-position query, end-of-sequence query,
    insert-before-position, inspect-at-position, advance-position,
    remove-at-position returning the next valid position, and
    teardown.  A list is its sequence of elements, a position is an
    index into it, and the element destructor runs when an element
    leaves the list. *)
Record dlist : Type := mk_dlist {
  elems : list table_entry;
  free_func : option (table_entry -> E -> E)
}.

(** Modelled from the spec: a position in the sequence, here the index
    of the element it designates; the end position is the length. *)
Definition dlist_pos : Type := nat.

(** Modelled from the spec: empty construction with an element
    destructor. *)
Definition dlist_empty (f : option (table_entry -> E -> E)) : dlist :=
  {| elems := []; free_func := f |}.

(** Modelled from the spec: true iff the sequence holds no entries. *)
Definition dlist_is_empty (l : dlist) : bool :=
  match elems l with
  | [] => true
  | _ :: _ => false
  end.

(** Modelled from the spec: head-position query. *)
Definition dlist_first (l : dlist) : dlist_pos := 0.

(** Modelled from the spec: end-of-sequence query. *)
Definition dlist_is_end (l : dlist) (p : dlist_pos) : bool :=
  p =? length (elems l).

(** Modelled from the spec: advance-position. *)
Definition dlist_next (l : dlist) (p : dlist_pos) : dlist_pos := S p.

(** Modelled from the spec: inspect-at-position; there is no element
    at the end position or beyond it. *)
Definition dlist_inspect (l : dlist) (p : dlist_pos) : option table_entry :=
  nth_error (elems l) p.

(** Modelled from the spec: insert-before-position; the result is the
    position of the new element. *)
Definition dlist_insert (l : dlist) (v : table_entry) (p : dlist_pos)
  : dlist * dlist_pos :=
  ({| elems := firstn p (elems l) ++ v :: skipn p (elems l);
      free_func := free_func l |}, p).

(** Modelled from the spec: the element destructor given at
    construction, applied to an element that leaves the list; nothing
    happens when none was given. *)
Definition run_free_func (l : dlist) (v : table_entry) (e : E) : E :=
  match free_func l with
  | Some f => f v e
  | None => e
  end.

(** Modelled from the spec: remove-at-position, returning the next
    valid position; the element that followed the removed one now
    sits at the same index. *)
Definition dlist_remove (l : dlist) (p : dlist_pos) (e : E)
  : option (dlist * dlist_pos * E) :=
  match nth_error (elems l) p with
  | Some v =>
      Some ({| elems := firstn p (elems l) ++ skipn (S p) (elems l);
               free_func := free_func l |}, p, run_free_func l v e)
  | None => None
  end.

(** Modelled from the spec: teardown of the sequence; every element
    still in the list is handed to the element destructor. *)
Definition dlist_kill (l : dlist) (e : E) : E :=
  fold_left (fun e' v => run_free_func l v e') (elems l) e.

(** *** The table *)

(** [struct table]. *)
Record table : Type := mk_table {
  entries : dlist;
  key_cmp_func : compare_function;
  key_free_func : option free_function;
  value_free_func : option free_function
}.

(** The storage behind the handle [t] together with the caller's
    environment.  [heap] is [None] before [table_empty] and after
    [table_kill]. *)
Record world : Type := mk_world {
  heap : option table;
  env : E
}.

Definition C (A : Type) : Type := M world A.

(** Read the header behind [t]. *)
Definition load : C table :=
  fun w =>
    match heap w with
    | Some t => Done t w
    | None => Undefined
    end.

(** The list functions mutate the list behind [t->entries] in place. *)
Definition store_entries (l : dlist) : C unit :=
  fun w =>
    match heap w with
    | Some t =>
        Done tt {| heap := Some {| entries := l;
                                   key_cmp_func := key_cmp_func t;
                                   key_free_func := key_free_func t;
                                   value_free_func := value_free_func t |};
                   env := env w |}
    | None => Undefined
    end.

(** A call into the caller's code. *)
Definition call {A} (f : E -> A * E) : C A :=
  fun w => let (a, e) := f (env w) in Done a {| heap := heap w; env := e |}.

Definition call_ (f : E -> E) : C unit :=
  fun w => Done tt {| heap := heap w; env := f (env w) |}.

(** [if (f != NULL) f(p);] *)
Definition call_if_set (f : option free_function) (p : ptr) : C unit :=
  match f with
  | Some g => call_ (g p)
  | None => ret tt
  end.

Definition inspect (l : dlist) (p : dlist_pos) : C table_entry :=
  match dlist_inspect l p with
  | Some v => ret v
  | None => undefined
  end.

(** [table_empty]: allocate the header, create the list with [free]
    as element destructor, store the three callbacks. *)
Definition table_empty (key_cmp : compare_function)
           (key_free value_free : option free_function) : C unit :=
  fun w =>
    Done tt {| heap := Some {| entries := dlist_empty (Some free);
                               key_cmp_func := key_cmp;
                               key_free_func := key_free;
                               value_free_func := value_free |};
               env := env w |}.

(** [table_is_empty]. *)
Definition table_is_empty : C bool :=
  t <- load;;
  ret (dlist_is_empty (entries t)).

(** [table_insert]. *)
Definition table_insert (k v : ptr) : C unit :=
  t <- load;;
  let entry := {| key := k; value := v |} in
  store_entries (fst (dlist_insert (entries t) entry (dlist_first (entries t)))).

(** The [while] loop of [table_lookup], from position [pos]. *)
Fixpoint table_lookup_loop (fuel : nat) (k : ptr) (pos : dlist_pos) : C ptr :=
  match fuel with
  | O => out_of_fuel
  | S fuel' =>
      t <- load;;
      if negb (dlist_is_end (entries t) pos) then
        entry <- inspect (entries t) pos;;
        c <- call (key_cmp_func t (key entry) k);;
        if (c =? 0)%Z then ret (value entry)
        else table_lookup_loop fuel' k (dlist_next (entries t) pos)
      else ret NULL
  end.

(** [table_lookup]. *)
Definition table_lookup (fuel : nat) (k : ptr) : C ptr :=
  t <- load;;
  table_lookup_loop fuel k (dlist_first (entries t)).

(** [pos = dlist_remove(t->entries, pos);] *)
Definition remove_at (pos : dlist_pos) : C dlist_pos :=
  fun w =>
    match heap w with
    | Some t =>
        match dlist_remove (entries t) pos (env w) with
        | Some (l, p, e) =>
            Done p {| heap := Some {| entries := l;
                                      key_cmp_func := key_cmp_func t;
                                      key_free_func := key_free_func t;
                                      value_free_func := value_free_func t |};
                      env := e |}
        | None => Undefined
        end
    | None => Undefined
    end.

(** The [while] loop of [table_remove], from position [pos]. *)
Fixpoint table_remove_loop (fuel : nat) (k : ptr) (pos : dlist_pos) : C unit :=
  match fuel with
  | O => out_of_fuel
  | S fuel' =>
      t <- load;;
      if negb (dlist_is_end (entries t) pos) then
        entry <- inspect (entries t) pos;;
        c <- call (key_cmp_func t (key entry) k);;
        if (c =? 0)%Z then
          call_if_set (key_free_func t) (key entry);;
          call_if_set (value_free_func t) (value entry);;
          pos' <- remove_at pos;;
          table_remove_loop fuel' k pos'
        else
          table_remove_loop fuel' k (dlist_next (entries t) pos)
      else ret tt
  end.

(** [table_remove]. *)
Definition table_remove (fuel : nat) (k : ptr) : C unit :=
  t <- load;;
  table_remove_loop fuel k (dlist_first (entries t)).

(** The [while] loop of [table_kill], from position [pos]. *)
Fixpoint table_kill_loop (fuel : nat) (pos : dlist_pos) : C unit :=
  match fuel with
  | O => out_of_fuel
  | S fuel' =>
      t <- load;;
      if negb (dlist_is_end (entries t) pos) then
        entry <- inspect (entries t) pos;;
        call_if_set (key_free_func t) (key entry);;
        call_if_set (value_free_func t) (value entry);;
        table_kill_loop fuel' (dlist_next (entries t) pos)
      else ret tt
  end.

(** [dlist_kill(t->entries); free(t);] *)
Definition release : C unit :=
  fun w =>
    match heap w with
    | Some t => Done tt {| heap := None; env := dlist_kill (entries t) (env w) |}
    | None => Undefined
    end.

(** [table_kill]. *)
Definition table_kill (fuel : nat) : C unit :=
  t <- load;;
  table_kill_loop fuel (dlist_first (entries t));;
  release.

(** The [while] loop of [table_print], from position [pos]. *)
Fixpoint table_print_loop (fuel : nat) (print_func : inspect_callback_pair)
         (pos : dlist_pos) : C unit :=
  match fuel with
  | O => out_of_fuel
  | S fuel' =>
      t <- load;;
      if negb (dlist_is_end (entries t) pos) then
        e <- inspect (entries t) pos;;
        call_ (print_func (key e) (value e));;
        table_print_loop fuel' print_func (dlist_next (entries t) pos)
      else ret tt
  end.

(** [table_print]. *)
Definition table_print (fuel : nat) (print_func : inspect_callback_pair) : C unit :=
  t <- load;;
  table_print_loop fuel print_func (dlist_first (entries t)).

End Table.

Arguments Done {W A} a w.
Arguments load {E}.
Arguments release {E}.
Arguments table_is_empty {E}.

(* ------------------------------------------------------------------ *)
(** ** Callbacks that record their calls *)

(** What the caller's code can observe of the table: each call the
  table makes into it, with the arguments in the order it receives
  them. *)
Inductive event : Type :=
| CmpCall (arg1 arg2 : ptr)
| KeyFree (p : ptr)
| ValueFree (p : ptr)
| EntryFree (e : table_entry)
| Visit (k v : ptr).

Definition trace : Type := list event.

Section Instrumented.

(** The answer of the caller's comparison; zero means equal. *)
Variable cmp : ptr -> ptr -> Z.

Definition traced_cmp : compare_function trace :=
  fun a b tr => (cmp a b, tr ++ [CmpCall a b]).

Definition traced_key_free : free_function trace :=
  fun p tr => tr ++ [KeyFree p].

Definition traced_value_free : free_function trace :=
  fun p tr => tr ++ [ValueFree p].

Definition traced_visit : inspect_callback_pair trace :=
  fun k v tr => tr ++ [Visit k v].

Definition traced_free : table_entry -> trace -> trace :=
  fun e tr => tr ++ [EntryFree e].

(** A destructor argument of [table_empty]: the function, or [NULL]. *)
Definition supplied (b : bool) (f : free_function trace)
  : option (free_function trace) :=
  if b then Some f else None.

(** Whether key and value destructor were supplied at creation. *)
Variables kf vf : bool.

(** The header [table_empty] builds from these callbacks, holding the
    entries [l]. *)
Definition header (l : list table_entry) : table trace :=
  {| entries := {| elems := l; free_func := Some traced_free |};
     key_cmp_func := traced_cmp;
     key_free_func := supplied kf traced_key_free;
     value_free_func := supplied vf traced_value_free |}.

(** A live table holding [l], after the calls [tr]. *)
Definition live (l : list table_entry) (tr : trace) : world trace :=
  {| heap := Some (header l); env := tr |}.

(** The world once the table has been destroyed. *)
Definition destroyed (tr : trace) : world trace :=
  {| heap := None; env := tr |}.

Definition create : C trace unit :=
  table_empty traced_free traced_cmp (supplied kf traced_key_free)
              (supplied vf traced_value_free).

(** *** Vocabulary of the specification *)

(** The entry's key compares equal to [k]. *)
Definition matches (k : ptr) (e : table_entry) : bool :=
  (cmp (key e) k =? 0)%Z.

(** The entries a forward scan for [k] looks at: all up to and
    including the first match. *)
Fixpoint scanned (k : ptr) (l : list table_entry) : list table_entry :=
  match l with
  | [] => []
  | e :: l' => e :: (if matches k e then [] else scanned k l')
  end.

(** Value of the first match, [NULL] without one. *)
Definition found (k : ptr) (l : list table_entry) : ptr :=
  match find (matches k) l with
  | Some e => value e
  | None => NULL
  end.

(** Destructor calls for one entry. *)
Definition free_events (e : table_entry) : trace :=
  (if kf then [KeyFree (key e)] else [])
    ++ (if vf then [ValueFree (value e)] else []).

Definition lookup_trace (k : ptr) (l : list table_entry) : trace :=
  map (fun e => CmpCall (key e) k) (scanned k l).

(** Calls made for one entry by a remove of [k]: the comparison and,
    on a match, the destructors and the release of the node. *)
Definition remove_events (k : ptr) (e : table_entry) : trace :=
  CmpCall (key e) k
    :: (if matches k e then free_events e ++ [EntryFree e] else []).

Definition remove_trace (k : ptr) (l : list table_entry) : trace :=
  flat_map (remove_events k) l.

Definition kill_trace (l : list table_entry) : trace :=
  flat_map free_events l ++ map EntryFree l.

Definition print_trace (l : list table_entry) : trace :=
  map (fun e => Visit (key e) (value e)) l.

(** Entries left by a remove of [k]. *)
Definition kept (k : ptr) (l : list table_entry) : list table_entry :=
  filter (fun e => negb (matches k e)) l.

End Instrumented.

(** The environment after a visitor has seen the entries [l] in order. *)
Definition visited (print_func : inspect_callback_pair trace)
    (l : list table_entry) (tr : trace) : trace :=
  fold_left (fun tr' e => print_func (key e) (value e) tr') l tr.

(** Projections of a trace: the arguments of the calls of one kind, in
  call order. *)
Definition cmp_calls (tr : trace) : list (ptr * ptr) :=
  flat_map (fun ev => match ev with CmpCall a b => [(a, b)] | _ => [] end) tr.

Definition key_frees (tr : trace) : list ptr :=
  flat_map (fun ev => match ev with KeyFree p => [p] | _ => [] end) tr.

Definition value_frees (tr : trace) : list ptr :=
  flat_map (fun ev => match ev with ValueFree p => [p] | _ => [] end) tr.

Definition entry_frees (tr : trace) : list table_entry :=
  flat_map (fun ev => match ev with EntryFree e => [e] | _ => [] end) tr.

Definition visits (tr : trace) : list (ptr * ptr) :=
  flat_map (fun ev => match ev with Visit k v => [(k, v)] | _ => [] end) tr.

(* ------------------------------------------------------------------ *)
(** ** Clients: sequences of inserts and removes *)

Inductive op : Type :=
| Insert (k v : ptr)
| Remove (k : ptr).

Section Client.

Variable E : Type.

Definition run_op (fuel : nat) (o : op) : C E unit :=
  match o with
  | Insert k v => table_insert k v
  | Remove k => table_remove fuel k
  end.

(** The calls of [ops], first to last, on the table behind [t]. *)
Fixpoint run_ops (fuel : nat) (ops : list op) : C E unit :=
  match ops with
  | [] => ret tt
  | o :: ops' => run_op fuel o;; run_ops fuel ops'
  end.

End Client.

Section History.

Variable cmp : ptr -> ptr -> Z.

(** The [i]-th call of the history inserted the pair of [e]. *)
Definition inserted_at (ops : list op) (i : nat) (e : table_entry) : Prop :=
  nth_error ops i = Some (Insert (key e) (value e)).

(** A later call removed a key that the key of [e] compares equal to. *)
Definition removed_after (ops : list op) (i : nat) (e : table_entry) : Prop :=
  exists j k, i < j /\ nth_error ops j = Some (Remove k) /\ cmp (key e) k = 0%Z.

Definition survives (ops : list op) (i : nat) (e : table_entry) : Prop :=
  inserted_at ops i e /\ ~ removed_after ops i e.

(** Newest first: a decreasing order on insertion indices. *)
Definition newer (p q : nat * table_entry) : Prop := fst q < fst p.

(** Value of the most recent insert whose key compares equal to [k]. *)
Fixpoint latest (k : ptr) (kvs : list (ptr * ptr)) : option ptr :=
  match kvs with
  | [] => None
  | (k', v) :: later =>
      match latest k later with
      | Some v' => Some v'
      | None => if (cmp k' k =? 0)%Z then Some v else None
      end
  end.

(** Entries of a table after one call and after a history of calls,
    head first. *)
Definition apply_op (l : list table_entry) (o : op) : list table_entry :=
  match o with
  | Insert k v => {| key := k; value := v |} :: l
  | Remove k => kept cmp k l
  end.

Definition apply_ops (l : list table_entry) (ops : list op) : list table_entry :=
  fold_left apply_op ops l.

(** Calls made into the caller's code by one call and by a history
    of calls on a table holding [l]. *)
Variables kf vf : bool.

Definition op_trace (l : list table_entry) (o : op) : trace :=
  match o with
  | Insert _ _ => []
  | Remove k => remove_trace cmp kf vf k l
  end.

Fixpoint ops_trace (l : list table_entry) (ops : list op) : trace :=
  match ops with
  | [] => []
  | o :: ops' => op_trace l o ++ ops_trace (apply_op l o) ops'
  end.


End History.

Definition insert_of (kv : ptr * ptr) : op := Insert (fst kv) (snd kv).

Definition entry_of (kv : ptr * ptr) : table_entry :=
  {| key := fst kv; value := snd kv |}.



(** *** Tables with arbitrary callbacks *)

Section Arbitrary.

Variable E : Type.

(** The element destructor of the list and the three callbacks of the
    table, none of them constrained: the comparison may answer
    differently from call to call and every callback may change the
    environment. *)
Variable elem_free : option (table_entry -> E -> E).
Variable key_cmp : compare_function E.
Variables key_free value_free : option (free_function E).





End Arbitrary.

(* ------------------------------------------------------------------ *)
(** ** Positions inside a list *)

Lemma nth_error_at_split (A : Type) (pre : list A) (x : A) (rest : list A) :
  nth_error (pre ++ x :: rest) (length pre) = Some x.
Proof. induction pre as [|y pre IH]; simpl; auto. Qed.

Lemma not_end_at_split (A : Type) (pre : list A) (x : A) (rest : list A) :
  (length pre =? length (pre ++ x :: rest)) = false.
Proof. apply Nat.eqb_neq. rewrite length_app. simpl. lia. Qed.

Lemma firstn_at_split (A : Type) (pre rest : list A) :
  firstn (length pre) (pre ++ rest) = pre.
Proof. induction pre as [|y pre IH]; simpl; [destruct rest; reflexivity | now rewrite IH]. Qed.

Lemma skipn_past_split (A : Type) (pre : list A) (x : A) (rest : list A) :
  skipn (S (length pre)) (pre ++ x :: rest) = rest.
Proof. induction pre as [|y pre IH]; simpl; auto. Qed.

Lemma snoc_split (A : Type) (pre : list A) (x : A) (rest : list A) :
  pre ++ x :: rest = (pre ++ [x]) ++ rest.
Proof. now rewrite <- app_assoc. Qed.

Lemma length_snoc (A : Type) (pre : list A) (x : A) :
  S (length pre) = length (pre ++ [x]).
Proof. rewrite length_app. simpl. lia. Qed.

Lemma app_snoc_cons (A : Type) (l : list A) (x : A) (l' : list A) :
  (l ++ [x]) ++ l' = l ++ x :: l'.
Proof. now rewrite <- app_assoc. Qed.

(* ------------------------------------------------------------------ *)
(** ** The loops, one entry at a time *)

(** Sequencing after a statement that completes. *)
Lemma bind_done (W A B : Type) (c : M W A) (k : A -> M W B) (w w' : W) (a : A) :
  c w = Done a w' -> bind c k w = k a w'.
Proof. intros H. unfold bind. now rewrite H. Qed.

Ltac step_with lem := erewrite bind_done by apply lem.

Section Loops.

Variable cmp : ptr -> ptr -> Z.
Variables kf vf : bool.

(** *** Single statements on a live table *)

Lemma load_live (l : list table_entry) (tr : trace) :
  load (live cmp kf vf l tr) = Done (header cmp kf vf l) (live cmp kf vf l tr).
Proof. reflexivity. Qed.

Lemma inspect_at_split (pre : list table_entry) (e : table_entry)
      (rest : list table_entry) (w : world trace) :
  inspect (entries (header cmp kf vf (pre ++ e :: rest))) (length pre) w
  = Done e w.
Proof.
  unfold inspect, dlist_inspect. cbn [header entries elems].
  now rewrite nth_error_at_split.
Qed.

Lemma call_cmp_live (a b : ptr) (l : list table_entry) (tr : trace) :
  call (key_cmp_func (header cmp kf vf l) a b) (live cmp kf vf l tr)
  = Done (cmp a b) (live cmp kf vf l (tr ++ [CmpCall a b])).
Proof. reflexivity. Qed.

Lemma call_key_free_live (p : ptr) (l : list table_entry) (tr : trace) :
  call_if_set (key_free_func (header cmp kf vf l)) p (live cmp kf vf l tr)
  = Done tt (live cmp kf vf l (tr ++ if kf then [KeyFree p] else [])).
Proof. destruct kf; cbn; unfold live; now rewrite ?app_nil_r. Qed.

Lemma call_value_free_live (p : ptr) (l : list table_entry) (tr : trace) :
  call_if_set (value_free_func (header cmp kf vf l)) p (live cmp kf vf l tr)
  = Done tt (live cmp kf vf l (tr ++ if vf then [ValueFree p] else [])).
Proof. destruct vf; cbn; unfold live; now rewrite ?app_nil_r. Qed.

Lemma call_visit_live (print_func : inspect_callback_pair trace) (k v : ptr)
      (l : list table_entry) (tr : trace) :
  call_ (print_func k v) (live cmp kf vf l tr)
  = Done tt (live cmp kf vf l (print_func k v tr)).
Proof. reflexivity. Qed.

Lemma is_end_at_split (pre : list table_entry) (e : table_entry)
      (rest : list table_entry) :
  dlist_is_end (entries (header cmp kf vf (pre ++ e :: rest))) (length pre) = false.
Proof. apply not_end_at_split. Qed.

Lemma is_end_at_length (l : list table_entry) :
  dlist_is_end (entries (header cmp kf vf l)) (length l) = true.
Proof. apply Nat.eqb_refl. Qed.

(** [dlist_remove] at a position inside the list of a live table. *)
Lemma remove_at_split (pre : list table_entry) (e : table_entry)
      (rest : list table_entry) (tr : trace) :
  remove_at (length pre) (live cmp kf vf (pre ++ e :: rest) tr)
  = Done (length pre) (live cmp kf vf (pre ++ rest) (tr ++ [EntryFree e])).
Proof.
  unfold remove_at, dlist_remove. cbn [live heap header entries elems].
  rewrite nth_error_at_split, firstn_at_split, skipn_past_split.
  reflexivity.
Qed.

(** *** [table_lookup] *)

Lemma table_lookup_loop_end (fuel : nat) (k : ptr) (l : list table_entry) (tr : trace) :
  table_lookup_loop (S fuel) k (length l) (live cmp kf vf l tr)
  = Done NULL (live cmp kf vf l tr).
Proof.
  cbn [table_lookup_loop]. step_with load_live.
  now rewrite is_end_at_length.
Qed.

Lemma table_lookup_loop_at (fuel : nat) (k : ptr) (pre : list table_entry)
      (e : table_entry) (rest : list table_entry) (tr : trace) :
  table_lookup_loop (S fuel) k (length pre) (live cmp kf vf (pre ++ e :: rest) tr)
  = if matches cmp k e
    then Done (value e) (live cmp kf vf (pre ++ e :: rest) (tr ++ [CmpCall (key e) k]))
    else table_lookup_loop fuel k (S (length pre))
           (live cmp kf vf (pre ++ e :: rest) (tr ++ [CmpCall (key e) k])).
Proof.
  cbn [table_lookup_loop]. step_with load_live.
  rewrite is_end_at_split. cbn [negb].
  step_with inspect_at_split. step_with call_cmp_live.
  unfold matches. now destruct (cmp (key e) k =? 0)%Z.
Qed.

Lemma table_lookup_loop_from (k : ptr) (rest pre : list table_entry) :
  forall (fuel : nat) (tr : trace),
    length rest < fuel ->
    table_lookup_loop fuel k (length pre) (live cmp kf vf (pre ++ rest) tr)
    = Done (found cmp k rest)
           (live cmp kf vf (pre ++ rest) (tr ++ lookup_trace cmp k rest)).
Proof.
  revert pre.
  induction rest as [|e rest IH]; intros pre fuel tr Hfuel;
    (destruct fuel as [|fuel]; [inversion Hfuel|]).
  - rewrite !app_nil_r. apply table_lookup_loop_end.
  - rewrite table_lookup_loop_at.
    unfold found, lookup_trace. simpl.
    destruct (matches cmp k e) eqn:Hm; [reflexivity|].
    rewrite (snoc_split pre e rest), (length_snoc pre e).
    rewrite IH by (simpl in Hfuel; lia).
    unfold found, lookup_trace. now rewrite !app_snoc_cons.
Qed.

(** *** [table_remove] *)

Lemma table_remove_loop_end (fuel : nat) (k : ptr) (l : list table_entry) (tr : trace) :
  table_remove_loop (S fuel) k (length l) (live cmp kf vf l tr)
  = Done tt (live cmp kf vf l tr).
Proof.
  cbn [table_remove_loop]. step_with load_live.
  now rewrite is_end_at_length.
Qed.

Lemma table_remove_loop_at (fuel : nat) (k : ptr) (pre : list table_entry)
      (e : table_entry) (rest : list table_entry) (tr : trace) :
  table_remove_loop (S fuel) k (length pre) (live cmp kf vf (pre ++ e :: rest) tr)
  = if matches cmp k e
    then table_remove_loop fuel k (length pre)
           (live cmp kf vf (pre ++ rest) (tr ++ remove_events cmp kf vf k e))
    else table_remove_loop fuel k (S (length pre))
           (live cmp kf vf (pre ++ e :: rest) (tr ++ remove_events cmp kf vf k e)).
Proof.
  cbn [table_remove_loop]. step_with load_live.
  rewrite is_end_at_split. cbn [negb].
  step_with inspect_at_split. step_with call_cmp_live.
  unfold remove_events, matches.
  destruct (cmp (key e) k =? 0)%Z; [|reflexivity].
  step_with call_key_free_live. step_with call_value_free_live.
  step_with remove_at_split.
  unfold free_events. now rewrite <- !app_assoc.
Qed.

Lemma table_remove_loop_from (k : ptr) (rest : list table_entry) :
  forall (pre : list table_entry) (fuel : nat) (tr : trace),
    length rest < fuel ->
    table_remove_loop fuel k (length pre) (live cmp kf vf (pre ++ rest) tr)
    = Done tt (live cmp kf vf (pre ++ kept cmp k rest)
                    (tr ++ remove_trace cmp kf vf k rest)).
Proof.
  induction rest as [|e rest IH]; intros pre fuel tr Hfuel;
    (destruct fuel as [|fuel]; [inversion Hfuel|]).
  - cbn [kept filter remove_trace flat_map]. rewrite !app_nil_r.
    apply table_remove_loop_end.
  - rewrite table_remove_loop_at.
    cbn [kept filter remove_trace flat_map].
    destruct (matches cmp k e) eqn:Hm; cbn [negb].
    + rewrite IH by (simpl in Hfuel; lia).
      unfold kept, remove_trace. now rewrite <- !app_assoc.
    + rewrite (snoc_split pre e rest), (length_snoc pre e).
      rewrite IH by (simpl in Hfuel; lia).
      unfold kept, remove_trace. now rewrite <- !app_assoc.
Qed.

(** *** [table_kill] *)

Lemma table_kill_loop_end (fuel : nat) (l : list table_entry) (tr : trace) :
  table_kill_loop (S fuel) (length l) (live cmp kf vf l tr)
  = Done tt (live cmp kf vf l tr).
Proof.
  cbn [table_kill_loop]. step_with load_live.
  now rewrite is_end_at_length.
Qed.

Lemma table_kill_loop_at (fuel : nat) (pre : list table_entry)
      (e : table_entry) (rest : list table_entry) (tr : trace) :
  table_kill_loop (S fuel) (length pre) (live cmp kf vf (pre ++ e :: rest) tr)
  = table_kill_loop fuel (S (length pre))
      (live cmp kf vf (pre ++ e :: rest) (tr ++ free_events kf vf e)).
Proof.
  cbn [table_kill_loop]. step_with load_live.
  rewrite is_end_at_split. cbn [negb].
  step_with inspect_at_split.
  step_with call_key_free_live. step_with call_value_free_live.
  unfold free_events. now rewrite <- !app_assoc.
Qed.

Lemma table_kill_loop_from (rest : list table_entry) :
  forall (pre : list table_entry) (fuel : nat) (tr : trace),
    length rest < fuel ->
    table_kill_loop fuel (length pre) (live cmp kf vf (pre ++ rest) tr)
    = Done tt (live cmp kf vf (pre ++ rest)
                    (tr ++ flat_map (free_events kf vf) rest)).
Proof.
  induction rest as [|e rest IH]; intros pre fuel tr Hfuel;
    (destruct fuel as [|fuel]; [inversion Hfuel|]).
  - cbn [flat_map]. rewrite !app_nil_r.
    apply table_kill_loop_end.
  - rewrite table_kill_loop_at.
    rewrite (snoc_split pre e rest), (length_snoc pre e).
    rewrite IH by (simpl in Hfuel; lia).
    cbn [flat_map]. now rewrite <- !app_assoc.
Qed.

(** The element destructor of the list is libc [free]: releasing the
    list frees each entry struct still in it. *)
Lemma dlist_kill_live (l : list table_entry) (tr : trace) :
  dlist_kill (entries (header cmp kf vf l)) tr = tr ++ map EntryFree l.
Proof.
  unfold dlist_kill, run_free_func. cbn [header entries elems free_func].
  revert tr. induction l as [|e l IH]; intros tr; cbn [fold_left map].
  - now rewrite app_nil_r.
  - rewrite IH. unfold traced_free. now rewrite app_snoc_cons.
Qed.

Lemma release_live (l : list table_entry) (tr : trace) :
  release (live cmp kf vf l tr) = Done tt (destroyed (tr ++ map EntryFree l)).
Proof.
  unfold release. cbn [live heap env]. now rewrite dlist_kill_live.
Qed.

(** *** [table_print] *)

Lemma table_print_loop_end (print_func : inspect_callback_pair trace)
      (fuel : nat) (l : list table_entry) (tr : trace) :
  table_print_loop (S fuel) print_func (length l) (live cmp kf vf l tr)
  = Done tt (live cmp kf vf l tr).
Proof.
  cbn [table_print_loop]. step_with load_live.
  now rewrite is_end_at_length.
Qed.

Lemma table_print_loop_at (print_func : inspect_callback_pair trace)
      (fuel : nat) (pre : list table_entry)
      (e : table_entry) (rest : list table_entry) (tr : trace) :
  table_print_loop (S fuel) print_func (length pre)
                   (live cmp kf vf (pre ++ e :: rest) tr)
  = table_print_loop fuel print_func (S (length pre))
      (live cmp kf vf (pre ++ e :: rest) (print_func (key e) (value e) tr)).
Proof.
  cbn [table_print_loop]. step_with load_live.
  rewrite is_end_at_split. cbn [negb].
  step_with inspect_at_split. step_with call_visit_live.
  reflexivity.
Qed.

Lemma table_print_loop_from (print_func : inspect_callback_pair trace)
      (rest : list table_entry) :
  forall (pre : list table_entry) (fuel : nat) (tr : trace),
    length rest < fuel ->
    table_print_loop fuel print_func (length pre)
                     (live cmp kf vf (pre ++ rest) tr)
    = Done tt (live cmp kf vf (pre ++ rest) (visited print_func rest tr)).
Proof.
  induction rest as [|e rest IH]; intros pre fuel tr Hfuel;
    (destruct fuel as [|fuel]; [inversion Hfuel|]).
  - cbn [visited fold_left]. rewrite !app_nil_r.
    apply table_print_loop_end.
  - rewrite table_print_loop_at.
    rewrite (snoc_split pre e rest), (length_snoc pre e).
    rewrite IH by (simpl in Hfuel; lia).
    reflexivity.
Qed.

Lemma visited_traced (l : list table_entry) (tr : trace) :
  visited traced_visit l tr = tr ++ print_trace l.
Proof.
  revert tr. induction l as [|e l IH]; intros tr; cbn [visited fold_left].
  - cbn. now rewrite app_nil_r.
  - fold (visited traced_visit l (traced_visit (key e) (value e) tr)).
    rewrite IH. unfold traced_visit. cbn [print_trace map].
    now rewrite app_snoc_cons.
Qed.

End Loops.

(* ------------------------------------------------------------------ *)
(** ** The functions of the table on a live table *)

Section Functions.

Variable cmp : ptr -> ptr -> Z.
Variables kf vf : bool.

Lemma create_live (w : world trace) :
  create cmp kf vf w = Done tt (live cmp kf vf [] (env w)).
Proof. reflexivity. Qed.

Lemma table_is_empty_live (l : list table_entry) (tr : trace) :
  table_is_empty (live cmp kf vf l tr)
  = Done (match l with [] => true | _ :: _ => false end) (live cmp kf vf l tr).
Proof. reflexivity. Qed.

Lemma table_insert_live (k v : ptr) (l : list table_entry) (tr : trace) :
  table_insert k v (live cmp kf vf l tr)
  = Done tt (live cmp kf vf ({| key := k; value := v |} :: l) tr).
Proof. reflexivity. Qed.

Lemma table_lookup_live (fuel : nat) (k : ptr) (l : list table_entry) (tr : trace) :
  length l < fuel ->
  table_lookup fuel k (live cmp kf vf l tr)
  = Done (found cmp k l) (live cmp kf vf l (tr ++ lookup_trace cmp k l)).
Proof.
  intros Hfuel. unfold table_lookup. step_with load_live.
  apply (table_lookup_loop_from cmp kf vf k l [] tr Hfuel).
Qed.

Lemma table_remove_live (fuel : nat) (k : ptr) (l : list table_entry) (tr : trace) :
  length l < fuel ->
  table_remove fuel k (live cmp kf vf l tr)
  = Done tt (live cmp kf vf (kept cmp k l) (tr ++ remove_trace cmp kf vf k l)).
Proof.
  intros Hfuel. unfold table_remove. step_with load_live.
  apply (table_remove_loop_from cmp kf vf k l [] tr Hfuel).
Qed.

Lemma table_kill_live (fuel : nat) (l : list table_entry) (tr : trace) :
  length l < fuel ->
  table_kill fuel (live cmp kf vf l tr)
  = Done tt (destroyed (tr ++ kill_trace kf vf l)).
Proof.
  intros Hfuel. unfold table_kill. step_with load_live.
  erewrite bind_done
    by apply (table_kill_loop_from cmp kf vf l [] tr Hfuel).
  cbn [app]. rewrite release_live. unfold kill_trace.
  now rewrite <- app_assoc.
Qed.

Lemma table_print_live (print_func : inspect_callback_pair trace)
      (fuel : nat) (l : list table_entry) (tr : trace) :
  length l < fuel ->
  table_print fuel print_func (live cmp kf vf l tr)
  = Done tt (live cmp kf vf l (visited print_func l tr)).
Proof.
  intros Hfuel. unfold table_print. step_with load_live.
  apply (table_print_loop_from cmp kf vf print_func l [] tr Hfuel).
Qed.

(** *** Histories *)

Lemma kept_length (k : ptr) (l : list table_entry) :
  length (kept cmp k l) <= length l.
Proof. apply filter_length_le. Qed.

Lemma run_ops_live (ops : list op) :
  forall (fuel : nat) (l : list table_entry) (tr : trace),
    length l + length ops < fuel ->
    run_ops fuel ops (live cmp kf vf l tr)
    = Done tt (live cmp kf vf (apply_ops cmp l ops)
                    (tr ++ ops_trace cmp kf vf l ops)).
Proof.
  induction ops as [|o ops IH]; intros fuel l tr Hfuel.
  - cbn. now rewrite app_nil_r.
  - cbn [run_ops apply_ops fold_left ops_trace].
    destruct o as [k v|k]; cbn [run_op op_trace apply_op].
    + step_with table_insert_live.
      rewrite IH by (cbn [length] in *; lia). reflexivity.
    + erewrite bind_done by (apply table_remove_live; lia).
      rewrite IH by (pose proof (kept_length k l); cbn [length] in *; lia).
      now rewrite <- app_assoc.
Qed.

End Functions.

(* ------------------------------------------------------------------ *)
(** ** Histories and the entries they leave *)

Lemma nth_error_snoc_old (A : Type) (l : list A) (x : A) (j : nat) :
  j < length l -> nth_error (l ++ [x]) j = nth_error l j.
Proof. intros H. now apply nth_error_app1. Qed.

Lemma nth_error_snoc_inv (A : Type) (l : list A) (x y : A) (j : nat) :
  nth_error (l ++ [x]) j = Some y ->
  (j < length l /\ nth_error l j = Some y) \/ (j = length l /\ y = x).
Proof.
  intros H.
  destruct (Nat.lt_ge_cases j (length l)) as [Hlt|Hge].
  - left. split; [assumption|]. now rewrite nth_error_app1 in H.
  - right. rewrite nth_error_app2 in H by assumption.
    destruct (j - length l) as [|d] eqn:Hd; simpl in H.
    + split; [lia | congruence].
    + destruct d; discriminate.
Qed.

Lemma StronglySorted_filter (A : Type) (R : A -> A -> Prop) (p : A -> bool)
      (l : list A) :
  StronglySorted R l -> StronglySorted R (filter p l).
Proof.
  induction 1 as [|x l Hs IH Hall]; simpl; [constructor|].
  destruct (p x); [|assumption].
  constructor; [assumption|].
  rewrite Forall_forall in *. intros y Hy.
  apply filter_In in Hy. now apply Hall.
Qed.

Lemma map_snd_filter (A B : Type) (p : B -> bool) (l : list (A * B)) :
  map snd (filter (fun x => p (snd x)) l) = filter p (map snd l).
Proof.
  induction l as [|[a b] l IH]; simpl; [reflexivity|].
  destruct (p b); simpl; now rewrite IH.
Qed.

Section Histories.

Variable cmp : ptr -> ptr -> Z.

Lemma survives_lt (ops : list op) (i : nat) (e : table_entry) :
  survives cmp ops i e -> i < length ops.
Proof.
  intros [Hins _]. apply nth_error_Some. unfold inserted_at in Hins.
  congruence.
Qed.

Lemma survives_insert_old (ops : list op) (k v : ptr) (i : nat) (e : table_entry) :
  survives cmp ops i e -> survives cmp (ops ++ [Insert k v]) i e.
Proof.
  intros Hs. pose proof (survives_lt Hs) as Hlt. destruct Hs as [Hins Hrem].
  split.
  - unfold inserted_at in *. now rewrite nth_error_snoc_old.
  - intros (j & k' & Hj & Hnth & Hc).
    apply nth_error_snoc_inv in Hnth as [[_ Hnth]|[_ Habs]]; [|discriminate].
    apply Hrem. now exists j, k'.
Qed.

Lemma survives_insert_new (ops : list op) (k v : ptr) :
  survives cmp (ops ++ [Insert k v]) (length ops) {| key := k; value := v |}.
Proof.
  split.
  - unfold inserted_at. now rewrite nth_error_at_split.
  - intros (j & k' & Hj & Hnth & _).
    apply nth_error_snoc_inv in Hnth as [[Hlt _]|[Heq _]]; lia.
Qed.

Lemma survives_insert_inv (ops : list op) (k v : ptr) (i : nat) (e : table_entry) :
  survives cmp (ops ++ [Insert k v]) i e ->
  (i = length ops /\ e = {| key := k; value := v |}) \/ survives cmp ops i e.
Proof.
  intros [Hins Hrem]. unfold inserted_at in Hins.
  apply nth_error_snoc_inv in Hins as [[Hlt Hins]|[Heq Hins]].
  - right. split; [assumption|].
    intros (j & k' & Hj & Hnth & Hc). apply Hrem. exists j, k'.
    split; [assumption|]. split; [|assumption].
    rewrite nth_error_snoc_old; [assumption|].
    apply nth_error_Some. congruence.
  - left. split; [assumption|]. destruct e as [ke ve]. simpl in Hins.
    congruence.
Qed.

Lemma survives_remove (ops : list op) (k : ptr) (i : nat) (e : table_entry) :
  survives cmp (ops ++ [Remove k]) i e
  <-> survives cmp ops i e /\ cmp (key e) k <> 0%Z.
Proof.
  split.
  - intros [Hins Hrem]. unfold inserted_at in Hins.
    apply nth_error_snoc_inv in Hins as [[Hlt Hins]|[_ Habs]]; [|discriminate].
    split; [split; [assumption|]|].
    + intros (j & k' & Hj & Hnth & Hc). apply Hrem. exists j, k'.
      split; [assumption|]. split; [|assumption].
      rewrite nth_error_snoc_old; [assumption|].
      apply nth_error_Some. congruence.
    + intros Hc. apply Hrem. exists (length ops), k.
      split; [assumption|]. split; [|assumption].
      now rewrite nth_error_at_split.
  - intros [Hs Hc]. pose proof (survives_lt Hs) as Hlt.
    destruct Hs as [Hins Hrem]. split.
    + unfold inserted_at in *. now rewrite nth_error_snoc_old.
    + intros (j & k' & Hj & Hnth & Hc').
      apply nth_error_snoc_inv in Hnth as [[_ Hnth]|[_ Heq]].
      * apply Hrem. now exists j, k'.
      * injection Heq as ->. contradiction.
Qed.

Lemma matches_false_iff (k : ptr) (e : table_entry) :
  negb (matches cmp k e) = true <-> cmp (key e) k <> 0%Z.
Proof.
  unfold matches. rewrite negb_true_iff. apply Z.eqb_neq.
Qed.

(** The entries a history leaves are the surviving inserts, each
    once, the most recent one at the head. *)
Lemma apply_ops_history (ops : list op) :
  exists stamped : list (nat * table_entry),
    map snd stamped = apply_ops cmp [] ops
    /\ Forall (fun p => survives cmp ops (fst p) (snd p)) stamped
    /\ StronglySorted newer stamped
    /\ (forall i e, survives cmp ops i e -> In (i, e) stamped).
Proof.
  induction ops as [|o ops IH] using rev_ind.
  - exists []. repeat split; try constructor.
    intros i e [Hins _]. unfold inserted_at in Hins. now destruct i.
  - destruct IH as (st & Hmap & Hall & Hsort & Hcomplete).
    unfold apply_ops in *. rewrite fold_left_app. cbn [fold_left].
    rewrite <- Hmap. destruct o as [k v|k]; cbn [apply_op].
    + exists ((length ops, {| key := k; value := v |}) :: st).
      split; [reflexivity|]. split; [|split].
      * constructor; [apply survives_insert_new|].
        eapply Forall_impl; [|exact Hall].
        intros p Hp. now apply survives_insert_old.
      * constructor; [assumption|].
        eapply Forall_impl; [|exact Hall].
        intros p Hp. unfold newer. cbn [fst]. exact (survives_lt Hp).
      * intros i e Hs. apply survives_insert_inv in Hs as [[-> ->]|Hs].
        -- now left.
        -- right. now apply Hcomplete.
    + exists (filter (fun p => negb (matches cmp k (snd p))) st).
      split; [|split; [|split]].
      * unfold kept.
        apply (map_snd_filter (fun e => negb (matches cmp k e))).
      * apply Forall_forall. intros p Hp. apply filter_In in Hp as [Hin Hp].
        apply survives_remove. split.
        -- rewrite Forall_forall in Hall. now apply Hall.
        -- now apply matches_false_iff.
      * now apply StronglySorted_filter.
      * intros i e Hs. apply survives_remove in Hs as [Hs Hc].
        apply filter_In. split; [now apply Hcomplete|].
        now apply matches_false_iff.
Qed.

End Histories.

(* ------------------------------------------------------------------ *)
(** ** Facts about the vocabulary *)

Section Vocabulary.

Variable cmp : ptr -> ptr -> Z.
Variables kf vf : bool.

Lemma apply_ops_length (ops : list op) :
  forall l, length (apply_ops cmp l ops) <= length l + length ops.
Proof.
  unfold apply_ops.
  induction ops as [|o ops IH]; intros l; cbn [fold_left length]; [lia|].
  specialize (IH (apply_op cmp l o)).
  destruct o as [k v|k]; cbn [apply_op length] in *.
  - lia.
  - pose proof (kept_length cmp k l). lia.
Qed.

Lemma apply_ops_inserts (kvs : list (ptr * ptr)) :
  forall l, apply_ops cmp l (map insert_of kvs) = rev (map entry_of kvs) ++ l.
Proof.
  unfold apply_ops.
  induction kvs as [|kv kvs IH]; intros l; cbn [map fold_left rev]; [reflexivity|].
  rewrite IH. cbn [insert_of apply_op]. now rewrite app_snoc_cons.
Qed.

Lemma ops_trace_inserts (kvs : list (ptr * ptr)) :
  forall l, ops_trace cmp kf vf l (map insert_of kvs) = [].
Proof.
  induction kvs as [|kv kvs IH]; intros l; cbn [map ops_trace]; [reflexivity|].
  now rewrite IH.
Qed.

Lemma found_cons (k : ptr) (e : table_entry) (l : list table_entry) :
  found cmp k (e :: l) = if matches cmp k e then value e else found cmp k l.
Proof. unfold found. cbn [find]. now destruct (matches cmp k e). Qed.

(** The first match from the head is the most recent matching insert. *)
Lemma found_latest (k : ptr) (kvs : list (ptr * ptr)) :
  forall l,
    found cmp k (rev (map entry_of kvs) ++ l)
    = match latest cmp k kvs with
      | Some v => v
      | None => found cmp k l
      end.
Proof.
  induction kvs as [|[k' v] kvs IH]; intros l; cbn [map rev latest]; [reflexivity|].
  rewrite app_snoc_cons, IH.
  destruct (latest cmp k kvs); [reflexivity|].
  rewrite found_cons. unfold matches, entry_of. cbn [key value fst snd].
  now destruct (cmp k' k =? 0)%Z.
Qed.

(** A scan with a match looks at the entries before it and at it. *)
Lemma scanned_first_match (k : ptr) (l : list table_entry) (e : table_entry) :
  find (matches cmp k) l = Some e ->
  exists before after,
    l = before ++ e :: after
    /\ Forall (fun x => matches cmp k x = false) before
    /\ matches cmp k e = true
    /\ scanned cmp k l = before ++ [e].
Proof.
  induction l as [|x l IH]; cbn [find scanned]; [discriminate|].
  destruct (matches cmp k x) eqn:Hx; intros Hfind.
  - injection Hfind as <-. exists [], l. repeat split; [constructor|assumption].
  - destruct (IH Hfind) as (before & after & -> & Hall & He & Hscan).
    exists (x :: before), after. repeat split.
    + now constructor.
    + assumption.
    + cbn [app]. now rewrite Hscan.
Qed.

(** A scan without a match looks at every entry. *)
Lemma scanned_no_match (k : ptr) (l : list table_entry) :
  (forall e, In e l -> cmp (key e) k <> 0%Z) ->
  find (matches cmp k) l = None /\ scanned cmp k l = l.
Proof.
  induction l as [|x l IH]; intros Hno; cbn [find scanned]; [now split|].
  assert (Hx : matches cmp k x = false)
    by (apply Z.eqb_neq, Hno; now left).
  rewrite Hx. destruct IH as [Hf Hs]; [intros e He; apply Hno; now right|].
  split; [assumption | now rewrite Hs].
Qed.

Lemma cmp_calls_app (tr tr' : trace) :
  cmp_calls (tr ++ tr') = cmp_calls tr ++ cmp_calls tr'.
Proof. apply flat_map_app. Qed.

Lemma key_frees_app (tr tr' : trace) :
  key_frees (tr ++ tr') = key_frees tr ++ key_frees tr'.
Proof. apply flat_map_app. Qed.

Lemma value_frees_app (tr tr' : trace) :
  value_frees (tr ++ tr') = value_frees tr ++ value_frees tr'.
Proof. apply flat_map_app. Qed.

Lemma entry_frees_app (tr tr' : trace) :
  entry_frees (tr ++ tr') = entry_frees tr ++ entry_frees tr'.
Proof. apply flat_map_app. Qed.

Lemma cmp_calls_lookup_trace (k : ptr) (l : list table_entry) :
  cmp_calls (lookup_trace cmp k l) = map (fun e => (key e, k)) (scanned cmp k l).
Proof.
  unfold lookup_trace. induction (scanned cmp k l) as [|e s IH]; cbn; [reflexivity|].
  now rewrite <- IH.
Qed.

Lemma cmp_calls_free_events (e : table_entry) :
  cmp_calls (free_events kf vf e) = [].
Proof. unfold free_events. now destruct kf, vf. Qed.

Lemma cmp_calls_remove_events (k : ptr) (e : table_entry) :
  cmp_calls (remove_events cmp kf vf k e) = [(key e, k)].
Proof.
  unfold remove_events. change (cmp_calls (CmpCall (key e) k :: ?t))
    with ((key e, k) :: cmp_calls t).
  destruct (matches cmp k e); [|reflexivity].
  now rewrite cmp_calls_app, cmp_calls_free_events.
Qed.

Lemma cmp_calls_remove_trace (k : ptr) (l : list table_entry) :
  cmp_calls (remove_trace cmp kf vf k l) = map (fun e => (key e, k)) l.
Proof.
  unfold remove_trace. induction l as [|e l IH]; cbn [flat_map map]; [reflexivity|].
  now rewrite cmp_calls_app, cmp_calls_remove_events, IH.
Qed.

End Vocabulary.

(* ------------------------------------------------------------------ *)
(** ** Destructor calls in a trace *)

Section Destructors.

Variable cmp : ptr -> ptr -> Z.
Variables kf vf : bool.

Lemma key_frees_free_events (e : table_entry) :
  key_frees (free_events kf vf e) = if kf then [key e] else [].
Proof. unfold free_events. now destruct kf, vf. Qed.

Lemma value_frees_free_events (e : table_entry) :
  value_frees (free_events kf vf e) = if vf then [value e] else [].
Proof. unfold free_events. now destruct kf, vf. Qed.

Lemma entry_frees_free_events (e : table_entry) :
  entry_frees (free_events kf vf e) = [].
Proof. unfold free_events. now destruct kf, vf. Qed.

Lemma key_frees_entry_frees (l : list table_entry) :
  key_frees (map EntryFree l) = [].
Proof. induction l as [|e l IH]; [reflexivity | exact IH]. Qed.

Lemma value_frees_entry_frees (l : list table_entry) :
  value_frees (map EntryFree l) = [].
Proof. induction l as [|e l IH]; [reflexivity | exact IH]. Qed.

Lemma key_frees_all (l : list table_entry) :
  key_frees (flat_map (free_events kf vf) l) = if kf then map key l else [].
Proof.
  induction l as [|e l IH]; cbn [flat_map map]; [now destruct kf|].
  rewrite key_frees_app, key_frees_free_events, IH. now destruct kf.
Qed.

Lemma value_frees_all (l : list table_entry) :
  value_frees (flat_map (free_events kf vf) l) = if vf then map value l else [].
Proof.
  induction l as [|e l IH]; cbn [flat_map map]; [now destruct vf|].
  rewrite value_frees_app, value_frees_free_events, IH. now destruct vf.
Qed.

Lemma key_frees_remove_trace (k : ptr) (l : list table_entry) :
  key_frees (remove_trace cmp kf vf k l)
  = if kf then map key (filter (matches cmp k) l) else [].
Proof.
  unfold remove_trace.
  induction l as [|e l IH]; cbn [flat_map filter]; [now destruct kf|].
  rewrite key_frees_app, IH. unfold remove_events.
  change (key_frees (CmpCall (key e) k :: ?t)) with (key_frees t).
  destruct (matches cmp k e).
  - rewrite key_frees_app, key_frees_free_events. now destruct kf.
  - reflexivity.
Qed.

Lemma value_frees_remove_trace (k : ptr) (l : list table_entry) :
  value_frees (remove_trace cmp kf vf k l)
  = if vf then map value (filter (matches cmp k) l) else [].
Proof.
  unfold remove_trace.
  induction l as [|e l IH]; cbn [flat_map filter]; [now destruct vf|].
  rewrite value_frees_app, IH. unfold remove_events.
  change (value_frees (CmpCall (key e) k :: ?t)) with (value_frees t).
  destruct (matches cmp k e).
  - rewrite value_frees_app, value_frees_free_events. now destruct vf.
  - reflexivity.
Qed.

Lemma entry_frees_remove_trace (k : ptr) (l : list table_entry) :
  entry_frees (remove_trace cmp kf vf k l) = filter (matches cmp k) l.
Proof.
  unfold remove_trace.
  induction l as [|e l IH]; cbn [flat_map filter]; [reflexivity|].
  rewrite entry_frees_app, IH. unfold remove_events.
  change (entry_frees (CmpCall (key e) k :: ?t)) with (entry_frees t).
  destruct (matches cmp k e).
  - now rewrite entry_frees_app, entry_frees_free_events.
  - reflexivity.
Qed.

Lemma visits_print_trace (l : list table_entry) :
  visits (print_trace l) = map (fun e => (key e, value e)) l.
Proof.
  induction l as [|e l IH]; [reflexivity|]. cbn. now f_equal.
Qed.

End Destructors.

(* ------------------------------------------------------------------ *)
(** ** Properties of the specification *)

(** C1. Latest-wins lookup: after any sequence of inserts on a fresh
    table, [table_lookup] compares the entries from the head on, stops at
    the first one whose key compares equal to the argument, and returns
    its value, which is the value of the most recent such insert. *)
Theorem table_lookup_latest_wins (cmp : ptr -> ptr -> Z) (kf vf : bool)
        (kvs : list (ptr * ptr)) (k : ptr) (fuel : nat) (w : world trace) :
  length kvs < fuel ->
  (create cmp kf vf;; run_ops fuel (map insert_of kvs);; table_lookup fuel k) w
  = Done (found cmp k (rev (map entry_of kvs)))
         (live cmp kf vf (rev (map entry_of kvs))
               (env w ++ lookup_trace cmp k (rev (map entry_of kvs))))
  /\ found cmp k (rev (map entry_of kvs))
     = match latest cmp k kvs with Some v => v | None => NULL end
  /\ (forall e,
         find (matches cmp k) (rev (map entry_of kvs)) = Some e ->
         exists before after,
           rev (map entry_of kvs) = before ++ e :: after
           /\ Forall (fun x => matches cmp k x = false) before
           /\ matches cmp k e = true
           /\ scanned cmp k (rev (map entry_of kvs)) = before ++ [e]).
Proof.
  intros Hfuel. split; [|split].
  - step_with create_live.
    erewrite bind_done
      by (apply run_ops_live; cbn [length]; now rewrite length_map).
    rewrite apply_ops_inserts, ops_trace_inserts, !app_nil_r.
    apply table_lookup_live. now rewrite length_rev, length_map.
  - pose proof (found_latest cmp k kvs []) as H.
    now rewrite app_nil_r in H.
  - intros e. apply scanned_first_match.
Qed.

Lemma table_lookup_latest_wins_witness :
  (create Z.sub true false;;
   run_ops 4 (map insert_of [(1, 10); (2, 20); (1, 30)]%Z);;
   table_lookup 4 1%Z) (destroyed [])
  = Done 30%Z
         (live Z.sub true false
               [mk_entry 1 30; mk_entry 2 20; mk_entry 1 10]%Z
               [CmpCall 1 1]%Z).
Proof.
  refine (proj1 (@table_lookup_latest_wins Z.sub true false
                   [(1, 10); (2, 20); (1, 30)]%Z 1%Z 4 (destroyed []) _)).
  cbn [length]. lia.
Defined.

(** C2. [table_remove] deletes every entry whose key compares equal to
    the argument and no other: what stays is the sublist of the
    non-matching entries in their original order.  Without a match the
    table keeps its contents and the call completes normally. *)
Theorem table_remove_all_matches (cmp : ptr -> ptr -> Z) (kf vf : bool)
        (l : list table_entry) (k : ptr) (fuel : nat) (tr : trace) :
  length l < fuel ->
  table_remove fuel k (live cmp kf vf l tr)
  = Done tt (live cmp kf vf (filter (fun e => negb (matches cmp k e)) l)
                  (tr ++ remove_trace cmp kf vf k l))
  /\ (forall e, In e (filter (fun e => negb (matches cmp k e)) l)
                <-> In e l /\ cmp (key e) k <> 0%Z)
  /\ ((forall e, In e l -> cmp (key e) k <> 0%Z) ->
      filter (fun e => negb (matches cmp k e)) l = l).
Proof.
  intros Hfuel. split; [|split].
  - now apply table_remove_live.
  - intros e. rewrite filter_In. now rewrite matches_false_iff.
  - intros Hno. apply forallb_filter_id, forallb_forall.
    intros e He. apply matches_false_iff. now apply Hno.
Qed.

Lemma table_remove_all_matches_witness :
  table_remove 4 1%Z
    (live Z.sub true true
          [mk_entry 1 30; mk_entry 2 20; mk_entry 1 10]%Z [])
  = Done tt
      (live Z.sub true true [mk_entry 2 20]%Z
            [CmpCall 1 1; KeyFree 1; ValueFree 30; EntryFree (mk_entry 1 30);
             CmpCall 2 1;
             CmpCall 1 1; KeyFree 1; ValueFree 10; EntryFree (mk_entry 1 10)]%Z).
Proof.
  refine (proj1 (@table_remove_all_matches Z.sub true true
                   [mk_entry 1 30; mk_entry 2 20; mk_entry 1 10]%Z 1%Z 4 [] _)).
  cbn [length]. lia.
Defined.

(** C3. Ordering: [table_insert] puts the new entry at the head of the
    list.  In every table reached from a fresh one by inserts and
    removes the entries are the surviving inserts, each once, and a
    traversal visits them most recently inserted first.  After inserts of
    the keys x, y and z the traversal yields z, y, x. *)
Theorem traversal_most_recent_first (cmp : ptr -> ptr -> Z) (kf vf : bool)
        (ops : list op) (x y z vx vy vz : ptr) (fuel : nat) (w : world trace) :
  length ops < fuel ->
  3 < fuel ->
  (forall l k v tr,
      table_insert k v (live cmp kf vf l tr)
      = Done tt (live cmp kf vf ({| key := k; value := v |} :: l) tr))
  /\ (exists (stamped : list (nat * table_entry)) (tr' : trace),
         (create cmp kf vf;; run_ops fuel ops) w
         = Done tt (live cmp kf vf (map snd stamped) tr')
         /\ (create cmp kf vf;; run_ops fuel ops;;
             table_print fuel traced_visit) w
            = Done tt
                (live cmp kf vf (map snd stamped)
                      (tr' ++ map (fun p => Visit (key (snd p)) (value (snd p)))
                                  stamped))
         /\ Forall (fun p => survives cmp ops (fst p) (snd p)) stamped
         /\ StronglySorted newer stamped
         /\ (forall i e, survives cmp ops i e -> In (i, e) stamped))
  /\ (create cmp kf vf;; table_insert x vx;; table_insert y vy;;
      table_insert z vz;; table_print fuel traced_visit) w
     = Done tt
         (live cmp kf vf
               [{| key := z; value := vz |}; {| key := y; value := vy |};
                {| key := x; value := vx |}]
               (env w ++ [Visit z vz; Visit y vy; Visit x vx])).
Proof.
  intros Hfuel H3. split; [|split].
  - intros l k v tr. apply table_insert_live.
  - destruct (apply_ops_history cmp ops)
      as (stamped & Hmap & Hall & Hsort & Hcomplete).
    exists stamped, (env w ++ ops_trace cmp kf vf [] ops).
    assert (Hrun : run_ops fuel ops (live cmp kf vf [] (env w))
                   = Done tt (live cmp kf vf (map snd stamped)
                                   (env w ++ ops_trace cmp kf vf [] ops))).
    { rewrite Hmap. apply run_ops_live. exact Hfuel. }
    split; [|split; [|split; [|split]]];
      [ step_with create_live; exact Hrun | | assumption.. ].
    step_with create_live. erewrite bind_done by exact Hrun.
    rewrite table_print_live.
    + rewrite visited_traced. unfold print_trace. now rewrite map_map.
    + rewrite Hmap. pose proof (apply_ops_length cmp ops []).
      cbn [length] in *. lia.
  - step_with create_live.
    do 3 step_with table_insert_live.
    rewrite table_print_live by (cbn [length]; lia).
    now rewrite visited_traced.
Qed.

Lemma traversal_most_recent_first_witness :
  (create Z.sub true true;; table_insert 120 1;; table_insert 121 2;;
   table_insert 122 3;; table_print 4 traced_visit)%Z (destroyed [])
  = Done tt
      (live Z.sub true true
            [mk_entry 122 3; mk_entry 121 2; mk_entry 120 1]%Z
            [Visit 122 3; Visit 121 2; Visit 120 1]%Z).
Proof.
  refine (proj2 (proj2 (@traversal_most_recent_first Z.sub true true
                          [Insert 1 10; Remove 1]%Z
                          120 121 122 1 2 3 4 (destroyed []) _ _)%Z)).
  - cbn [length]. lia.
  - lia.
Defined.

(** C4. [table_kill] calls the key destructor once for each entry still
    in the table when one was given to [table_empty], the value
    destructor once for each such entry when one was given, and no
    destructor for a field whose destructor was [NULL]. *)
Theorem table_kill_destructors (cmp : ptr -> ptr -> Z) (kf vf : bool)
        (l : list table_entry) (fuel : nat) (tr : trace) :
  length l < fuel ->
  table_kill fuel (live cmp kf vf l tr)
  = Done tt (destroyed (tr ++ kill_trace kf vf l))
  /\ key_frees (kill_trace kf vf l) = (if kf then map key l else [])
  /\ value_frees (kill_trace kf vf l) = (if vf then map value l else [])
  /\ kill_trace kf vf l
     = flat_map (fun e => (if kf then [KeyFree (key e)] else [])
                            ++ (if vf then [ValueFree (value e)] else [])) l
         ++ map EntryFree l.
Proof.
  intros Hfuel. split; [|split; [|split]].
  - now apply table_kill_live.
  - unfold kill_trace.
    rewrite key_frees_app, key_frees_all, key_frees_entry_frees.
    apply app_nil_r.
  - unfold kill_trace.
    rewrite value_frees_app, value_frees_all, value_frees_entry_frees.
    apply app_nil_r.
  - reflexivity.
Qed.

Lemma table_kill_destructors_witness :
  table_kill 3
    (live Z.sub true false [mk_entry 1 30; mk_entry 2 20]%Z [])
  = Done tt
      (destroyed [KeyFree 1; KeyFree 2;
                  EntryFree (mk_entry 1 30); EntryFree (mk_entry 2 20)]%Z).
Proof.
  refine (proj1 (@table_kill_destructors Z.sub true false
                   [mk_entry 1 30; mk_entry 2 20]%Z 3 [] _)).
  cbn [length]. lia.
Defined.

(** C5. During [table_remove], each entry is compared once; for an
    entry whose key compares equal to the argument the key destructor
    (when given) is called on its key, then the value destructor (when
    given) on its value, then its node is released from the list.  A
    destructor runs once per removed entry and for no other entry. *)
Theorem table_remove_destructors (cmp : ptr -> ptr -> Z) (kf vf : bool)
        (l : list table_entry) (k : ptr) (fuel : nat) (tr : trace) :
  length l < fuel ->
  table_remove fuel k (live cmp kf vf l tr)
  = Done tt
      (live cmp kf vf (filter (fun e => negb (matches cmp k e)) l)
            (tr ++ flat_map
                  (fun e =>
                     CmpCall (key e) k
                       :: (if matches cmp k e
                           then ((if kf then [KeyFree (key e)] else [])
                                   ++ (if vf then [ValueFree (value e)] else []))
                                  ++ [EntryFree e]
                           else [])) l))
  /\ key_frees (remove_trace cmp kf vf k l)
     = (if kf then map key (filter (matches cmp k) l) else [])
  /\ value_frees (remove_trace cmp kf vf k l)
     = (if vf then map value (filter (matches cmp k) l) else [])
  /\ entry_frees (remove_trace cmp kf vf k l) = filter (matches cmp k) l.
Proof.
  intros Hfuel. split; [|split; [|split]].
  - now apply table_remove_live.
  - apply key_frees_remove_trace.
  - apply value_frees_remove_trace.
  - apply entry_frees_remove_trace.
Qed.

Lemma table_remove_destructors_witness :
  table_remove 3 2%Z
    (live Z.sub false true [mk_entry 1 30; mk_entry 2 20]%Z [])
  = Done tt
      (live Z.sub false true [mk_entry 1 30]%Z
            [CmpCall 1 2; CmpCall 2 2; ValueFree 20;
             EntryFree (mk_entry 2 20)]%Z).
Proof.
  refine (proj1 (@table_remove_destructors Z.sub false true
                   [mk_entry 1 30; mk_entry 2 20]%Z 2%Z 3 [] _)).
  cbn [length]. lia.
Defined.

(** C6. [table_lookup] returns [NULL] on a table without entries and on
    any table in which no entry's key compares equal to the argument. *)
Theorem table_lookup_not_found (cmp : ptr -> ptr -> Z) (kf vf : bool)
        (l : list table_entry) (k : ptr) (fuel : nat) (w : world trace) :
  length l < fuel ->
  (forall e, In e l -> cmp (key e) k <> 0%Z) ->
  (create cmp kf vf;; table_lookup fuel k) w
  = Done NULL (live cmp kf vf [] (env w))
  /\ table_lookup fuel k (live cmp kf vf [] (env w))
     = Done NULL (live cmp kf vf [] (env w))
  /\ table_lookup fuel k (live cmp kf vf l (env w))
     = Done NULL
            (live cmp kf vf l (env w ++ map (fun e => CmpCall (key e) k) l)).
Proof.
  intros Hfuel Hno.
  assert (H0 : length (@nil table_entry) < fuel) by (cbn [length]; lia).
  assert (Hempty : table_lookup fuel k (live cmp kf vf [] (env w))
                   = Done NULL (live cmp kf vf [] (env w))).
  { rewrite (table_lookup_live cmp kf vf k [] (env w) H0).
    cbn. now rewrite app_nil_r. }
  split; [|split].
  - step_with create_live. exact Hempty.
  - exact Hempty.
  - rewrite (table_lookup_live cmp kf vf k l (env w) Hfuel).
    destruct (scanned_no_match cmp k l Hno) as [Hfind Hscan].
    unfold found, lookup_trace. now rewrite Hfind, Hscan.
Qed.

Lemma table_lookup_not_found_witness :
  table_lookup 3 7%Z
    (live Z.sub true true [mk_entry 1 30; mk_entry 2 20]%Z [])
  = Done NULL
      (live Z.sub true true [mk_entry 1 30; mk_entry 2 20]%Z
            [CmpCall 1 7; CmpCall 2 7]%Z).
Proof.
  refine (proj2 (proj2 (@table_lookup_not_found Z.sub true true
                          [mk_entry 1 30; mk_entry 2 20]%Z 7%Z 3
                          (destroyed []) _ _))).
  - cbn [length]. lia.
  - intros e [<-|[<-|[]]]; cbn; lia.
Defined.

(** C7. [table_is_empty] answers true exactly when the table holds no
    entry: on a fresh table, and after a history in which every inserted
    entry has been removed again; it answers false when an entry is
    present.  After two inserts under a key and a remove of that key it
    answers true. *)
Theorem table_is_empty_iff_no_entries (cmp : ptr -> ptr -> Z) (kf vf : bool)
        (ops : list op) (a1 a2 q v1 v2 : ptr) (fuel : nat) (w : world trace) :
  length ops < fuel ->
  2 < fuel ->
  cmp a1 q = 0%Z ->
  cmp a2 q = 0%Z ->
  (create cmp kf vf;; table_is_empty) w
  = Done true (live cmp kf vf [] (env w))
  /\ (forall l tr,
         exists b,
           table_is_empty (live cmp kf vf l tr) = Done b (live cmp kf vf l tr)
           /\ (b = true <-> l = []))
  /\ (exists b w',
         (create cmp kf vf;; run_ops fuel ops;; table_is_empty) w = Done b w'
         /\ (b = true <-> forall i e, ~ survives cmp ops i e))
  /\ (exists tr',
         (create cmp kf vf;; table_insert a1 v1;; table_insert a2 v2;;
          table_remove fuel q;; table_is_empty) w
         = Done true (live cmp kf vf [] tr')).
Proof.
  intros Hfuel H2 Ha1 Ha2. split; [|split; [|split]].
  - reflexivity.
  - intros l tr. rewrite table_is_empty_live.
    eexists. split; [reflexivity|]. now destruct l.
  - destruct (apply_ops_history cmp ops)
      as (stamped & Hmap & Hall & Hsort & Hcomplete).
    eexists. eexists. split.
    + step_with create_live.
      erewrite bind_done by (apply run_ops_live; exact Hfuel).
      apply table_is_empty_live.
    + rewrite <- Hmap. destruct stamped as [|[i e] stamped]; cbn [map].
      * split; [|reflexivity]. intros _ i e Hs.
        exact (Hcomplete i e Hs).
      * split; [discriminate|]. intros Hnone. exfalso.
        apply (Hnone i e). now inversion Hall.
  - eexists.
    step_with create_live. do 2 step_with table_insert_live.
    erewrite bind_done by (apply table_remove_live; cbn [length]; lia).
    rewrite table_is_empty_live.
    unfold kept, matches. cbn [filter key]. rewrite Ha1, Ha2. cbn.
    reflexivity.
Qed.

Lemma table_is_empty_iff_no_entries_witness :
  exists tr',
    (create Z.sub true true;; table_insert 97 1;; table_insert 97 2;;
     table_remove 3 97;; table_is_empty)%Z (destroyed [])
    = Done true (live Z.sub true true [] tr').
Proof.
  refine (proj2 (proj2 (proj2
            (@table_is_empty_iff_no_entries Z.sub true true
               [Insert 97 1; Remove 97]%Z 97 97 97 1 2 3 (destroyed [])
               _ _ _ _)%Z))).
  - cbn [length]. lia.
  - lia.
  - reflexivity.
  - reflexivity.
Defined.

(** C8. [table_print] calls the visitor once for each entry, with the
    entry's key and value, from the head of the list to its tail, and
    leaves the table as it was. *)
Theorem table_print_visits_in_order (cmp : ptr -> ptr -> Z) (kf vf : bool)
        (print_func : inspect_callback_pair trace)
        (l : list table_entry) (fuel : nat) (tr : trace) :
  length l < fuel ->
  table_print fuel print_func (live cmp kf vf l tr)
  = Done tt
      (live cmp kf vf l
            (fold_left (fun tr' e => print_func (key e) (value e) tr') l tr))
  /\ table_print fuel traced_visit (live cmp kf vf l tr)
     = Done tt
         (live cmp kf vf l (tr ++ map (fun e => Visit (key e) (value e)) l))
  /\ visits (map (fun e => Visit (key e) (value e)) l)
     = map (fun e => (key e, value e)) l.
Proof.
  intros Hfuel. split; [|split].
  - now apply table_print_live.
  - rewrite table_print_live by assumption. now rewrite visited_traced.
  - apply visits_print_trace.
Qed.

Lemma table_print_visits_in_order_witness :
  table_print 3 traced_visit
    (live Z.sub true true [mk_entry 1 30; mk_entry 2 20]%Z [])
  = Done tt
      (live Z.sub true true [mk_entry 1 30; mk_entry 2 20]%Z
            [Visit 1 30; Visit 2 20]%Z).
Proof.
  refine (proj1 (proj2 (@table_print_visits_in_order Z.sub true true
                          traced_visit
                          [mk_entry 1 30; mk_entry 2 20]%Z 3 [] _))).
  cbn [length]. lia.
Defined.

(** C9. [table_lookup] does not change the table: the header and the
    list of entries, contents and order, are the same after the call,
    also when a match was found; the matched entry stays where it is. *)
Theorem table_lookup_no_mutation (cmp : ptr -> ptr -> Z) (kf vf : bool)
        (l : list table_entry) (k : ptr) (fuel : nat) (tr : trace) :
  length l < fuel ->
  exists (r : ptr) (w' : world trace),
    table_lookup fuel k (live cmp kf vf l tr) = Done r w'
    /\ heap w' = heap (live cmp kf vf l tr)
    /\ (forall t', heap w' = Some t' -> elems (entries t') = l).
Proof.
  intros Hfuel.
  exists (found cmp k l), (live cmp kf vf l (tr ++ lookup_trace cmp k l)).
  split; [now apply table_lookup_live|]. split; [reflexivity|].
  intros t' Ht'. cbn in Ht'. injection Ht' as <-. reflexivity.
Qed.

Lemma table_lookup_no_mutation_witness :
  exists (r : ptr) (w' : world trace),
    table_lookup 3 2%Z
      (live Z.sub true true [mk_entry 1 30; mk_entry 2 20]%Z [])
    = Done r w'
    /\ heap w'
       = heap (live Z.sub true true [mk_entry 1 30; mk_entry 2 20]%Z [])
    /\ (forall t', heap w' = Some t'
                   -> elems (entries t') = [mk_entry 1 30; mk_entry 2 20]%Z).
Proof.
  refine (@table_lookup_no_mutation Z.sub true true
            [mk_entry 1 30; mk_entry 2 20]%Z 2%Z 3 [] _).
  cbn [length]. lia.
Defined.

(** C10. In [table_lookup] and in [table_remove] every call of the
    comparison function has the key stored in the entry as first
    argument and the key given by the caller as second argument. *)
Theorem comparison_argument_order (cmp : ptr -> ptr -> Z) (kf vf : bool)
        (l : list table_entry) (k : ptr) (fuel : nat) (tr : trace) :
  length l < fuel ->
  (table_lookup fuel k (live cmp kf vf l tr)
   = Done (found cmp k l) (live cmp kf vf l (tr ++ lookup_trace cmp k l))
   /\ cmp_calls (lookup_trace cmp k l)
      = map (fun e => (key e, k)) (scanned cmp k l))
  /\ (table_remove fuel k (live cmp kf vf l tr)
      = Done tt (live cmp kf vf (kept cmp k l)
                      (tr ++ remove_trace cmp kf vf k l))
      /\ cmp_calls (remove_trace cmp kf vf k l)
         = map (fun e => (key e, k)) l).
Proof.
  intros Hfuel. split; split.
  - now apply table_lookup_live.
  - apply cmp_calls_lookup_trace.
  - now apply table_remove_live.
  - apply cmp_calls_remove_trace.
Qed.

(** With the comparison [a - 2 * b] the stored key 4 is found by the
    query 2 and not by the query 4. *)
Lemma comparison_argument_order_witness :
  (table_lookup 2 2%Z
     (live (fun a b => a - 2 * b)%Z true true [mk_entry 4 40]%Z [])
   = Done 40%Z
       (live (fun a b => a - 2 * b)%Z true true [mk_entry 4 40]%Z
             [CmpCall 4 2]%Z))
  /\ (table_lookup 2 4%Z
        (live (fun a b => a - 2 * b)%Z true true [mk_entry 4 40]%Z [])
      = Done NULL
          (live (fun a b => a - 2 * b)%Z true true [mk_entry 4 40]%Z
                [CmpCall 4 4]%Z)).
Proof.
  split.
  - refine (proj1 (proj1 (@comparison_argument_order
                            (fun a b => a - 2 * b)%Z true true
                            [mk_entry 4 40]%Z 2%Z 2 [] _))).
    cbn [length]. lia.
  - refine (proj1 (proj1 (@comparison_argument_order
                            (fun a b => a - 2 * b)%Z true true
                            [mk_entry 4 40]%Z 4%Z 2 [] _))).
    cbn [length]. lia.
Defined.

(* ------------------------------------------------------------------ *)
(** ** The loops under arbitrary callbacks *)


Section ArbitraryLoops.

Variable E : Type.
Variable elem_free : option (table_entry -> E -> E).
Variable key_cmp : compare_function E.
Variables key_free value_free : option (free_function E).















End ArbitraryLoops.

(* ------------------------------------------------------------------ *)
(** ** Further properties: arbitrary callbacks *)







(* ------------------------------------------------------------------ *)
(** ** How the operations compose *)

Section Composition.

Variable cmp : ptr -> ptr -> Z.
Variables kf vf : bool.

Lemma matches_true_iff (k : ptr) (e : table_entry) :
  matches cmp k e = true <-> cmp (key e) k = 0%Z.
Proof. unfold matches. apply Z.eqb_eq. Qed.

Lemma kept_no_match (k : ptr) (l : list table_entry) (e : table_entry) :
  In e (kept cmp k l) -> cmp (key e) k <> 0%Z.
Proof.
  unfold kept. intros He. apply filter_In in He as [_ He].
  now apply matches_false_iff.
Qed.

Lemma kept_all (k : ptr) (l : list table_entry) :
  (forall e, In e l -> cmp (key e) k <> 0%Z) -> kept cmp k l = l.
Proof.
  intros Hno. apply forallb_filter_id, forallb_forall.
  intros e He. apply matches_false_iff. now apply Hno.
Qed.

Lemma kept_nil_iff (k : ptr) (l : list table_entry) :
  kept cmp k l = [] <-> forall e, In e l -> cmp (key e) k = 0%Z.
Proof.
  unfold kept. induction l as [|x l IH]; cbn [filter].
  - split; [intros _ e [] | reflexivity].
  - destruct (matches cmp k x) eqn:Hx; cbn [negb].
    + rewrite IH. split.
      * intros H e [<-|He]; [now apply matches_true_iff | now apply H].
      * intros H e He. apply H. now right.
    + split; [discriminate|]. intros H. exfalso.
      assert (Hx' : matches cmp k x = true)
        by (apply matches_true_iff, H; now left).
      congruence.
Qed.

(** A remove that matches nothing compares every entry and does nothing
    else. *)
Lemma remove_trace_no_match (k : ptr) (l : list table_entry) :
  (forall e, In e l -> cmp (key e) k <> 0%Z) ->
  remove_trace cmp kf vf k l = map (fun e => CmpCall (key e) k) l.
Proof.
  unfold remove_trace, remove_events.
  induction l as [|x l IH]; intros Hno; cbn [flat_map map]; [reflexivity|].
  assert (Hx : matches cmp k x = false)
    by (apply Z.eqb_neq, Hno; now left).
  rewrite Hx, IH by (intros e He; apply Hno; now right). reflexivity.
Qed.

(** Removing [k] does not change what a scan for [q] finds, as long as
    no entry compares equal to both. *)
Lemma found_kept (k q : ptr) (l : list table_entry) :
  (forall e, In e l -> cmp (key e) k = 0%Z -> cmp (key e) q <> 0%Z) ->
  found cmp q (kept cmp k l) = found cmp q l.
Proof.
  unfold kept. induction l as [|x l IH]; intros Hsep; [reflexivity|].
  cbn [filter]. rewrite found_cons.
  assert (IH' : found cmp q (filter (fun e => negb (matches cmp k e)) l)
                = found cmp q l)
    by (apply IH; intros e He; apply Hsep; now right).
  destruct (matches cmp k x) eqn:Hk; cbn [negb].
  - assert (Hq : matches cmp q x = false).
    { apply Z.eqb_neq, Hsep; [now left | now apply matches_true_iff]. }
    now rewrite Hq.
  - rewrite found_cons. now rewrite IH'.
Qed.





End Composition.

(** X4. Insert then lookup: on any table, after [table_insert] of a key
    and a value, a [table_lookup] with a key that the inserted key
    compares equal to returns that value after a single comparison,
    whatever the table held before. *)
Theorem insert_lookup_round_trip (cmp : ptr -> ptr -> Z) (kf vf : bool)
        (l : list table_entry) (k v q : ptr) (fuel : nat) (tr : trace) :
  0 < fuel ->
  cmp k q = 0%Z ->
  (table_insert k v;; table_lookup fuel q) (live cmp kf vf l tr)
  = Done v (live cmp kf vf ({| key := k; value := v |} :: l)
                 (tr ++ [CmpCall k q])).
Proof.
  intros Hfuel Hc. destruct fuel as [|fuel]; [inversion Hfuel|].
  step_with table_insert_live.
  unfold table_lookup. step_with load_live.
  etransitivity;
    [exact (table_lookup_loop_at cmp kf vf fuel q []
                                 {| key := k; value := v |} l tr)|].
  unfold matches. cbn [key value]. rewrite Hc. reflexivity.
Qed.

Lemma insert_lookup_round_trip_witness :
  (table_insert 7 70;; table_lookup 1 7)%Z
    (live Z.sub true true [mk_entry 7 10; mk_entry 2 20]%Z [])
  = Done 70%Z
      (live Z.sub true true
            [mk_entry 7 70; mk_entry 7 10; mk_entry 2 20]%Z [CmpCall 7 7]%Z).
Proof.
  refine (@insert_lookup_round_trip Z.sub true true
            [mk_entry 7 10; mk_entry 2 20]%Z 7%Z 70%Z 7%Z 1 [] _ _).
  - lia.
  - reflexivity.
Defined.

(** X5. An insert does not disturb other keys: when the inserted key
    does not compare equal to the key looked up, [table_lookup] after
    the insert returns what it returned before, after one comparison
    more. *)
Theorem insert_keeps_other_lookups (cmp : ptr -> ptr -> Z) (kf vf : bool)
        (l : list table_entry) (k v q : ptr) (fuel : nat) (tr : trace) :
  S (length l) < fuel ->
  cmp k q <> 0%Z ->
  exists r : ptr,
    table_lookup fuel q (live cmp kf vf l tr)
    = Done r (live cmp kf vf l (tr ++ lookup_trace cmp q l))
    /\ (table_insert k v;; table_lookup fuel q) (live cmp kf vf l tr)
       = Done r (live cmp kf vf ({| key := k; value := v |} :: l)
                      (tr ++ CmpCall k q :: lookup_trace cmp q l)).
Proof.
  intros Hfuel Hc. exists (found cmp q l). split.
  - apply table_lookup_live. lia.
  - step_with table_insert_live.
    rewrite table_lookup_live by (cbn [length]; lia).
    rewrite found_cons. unfold lookup_trace. cbn [scanned map].
    unfold matches at 1 2. cbn [key value].
    apply Z.eqb_neq in Hc. now rewrite Hc.
Qed.

Lemma insert_keeps_other_lookups_witness :
  exists r : ptr,
    table_lookup 4 2%Z
      (live Z.sub true true [mk_entry 7 10; mk_entry 2 20]%Z [])
    = Done r (live Z.sub true true [mk_entry 7 10; mk_entry 2 20]%Z
                   [CmpCall 7 2; CmpCall 2 2]%Z)
    /\ (table_insert 9 90;; table_lookup 4 2)%Z
         (live Z.sub true true [mk_entry 7 10; mk_entry 2 20]%Z [])
       = Done r (live Z.sub true true
                      [mk_entry 9 90; mk_entry 7 10; mk_entry 2 20]%Z
                      [CmpCall 9 2; CmpCall 7 2; CmpCall 2 2]%Z).
Proof.
  refine (@insert_keeps_other_lookups Z.sub true true
            [mk_entry 7 10; mk_entry 2 20]%Z 9%Z 90%Z 2%Z 4 [] _ _).
  - cbn [length]. lia.
  - cbn. lia.
Defined.

(** X6. Remove then lookup: after [table_remove] of a key,
    [table_lookup] of the same key returns [NULL]; it compares every
    entry that is left and finds none. *)
Theorem remove_then_lookup_null (cmp : ptr -> ptr -> Z) (kf vf : bool)
        (l : list table_entry) (k : ptr) (fuel : nat) (tr : trace) :
  length l < fuel ->
  (table_remove fuel k;; table_lookup fuel k) (live cmp kf vf l tr)
  = Done NULL
      (live cmp kf vf (kept cmp k l)
            ((tr ++ remove_trace cmp kf vf k l)
               ++ map (fun e => CmpCall (key e) k) (kept cmp k l))).
Proof.
  intros Hfuel.
  erewrite bind_done by (apply table_remove_live; exact Hfuel).
  rewrite table_lookup_live
    by (pose proof (kept_length cmp k l); lia).
  destruct (scanned_no_match cmp k (kept cmp k l)) as [Hfind Hscan];
    [intros e; apply kept_no_match|].
  unfold found, lookup_trace. now rewrite Hfind, Hscan.
Qed.

Lemma remove_then_lookup_null_witness :
  (table_remove 3 7;; table_lookup 3 7)%Z
    (live Z.sub false false [mk_entry 7 10; mk_entry 2 20]%Z [])
  = Done NULL
      (live Z.sub false false [mk_entry 2 20]%Z
            [CmpCall 7 7; EntryFree (mk_entry 7 10); CmpCall 2 7;
             CmpCall 2 7]%Z).
Proof.
  refine (@remove_then_lookup_null Z.sub false false
            [mk_entry 7 10; mk_entry 2 20]%Z 7%Z 3 [] _).
  cbn [length]. lia.
Defined.

(** X7. [table_remove] is idempotent: a second remove of the same key
    leaves the entries of the first, compares each of them once and
    calls no destructor and frees no node. *)
Theorem table_remove_idempotent (cmp : ptr -> ptr -> Z) (kf vf : bool)
        (l : list table_entry) (k : ptr) (fuel : nat) (tr : trace) :
  length l < fuel ->
  table_remove fuel k (live cmp kf vf l tr)
  = Done tt (live cmp kf vf (kept cmp k l) (tr ++ remove_trace cmp kf vf k l))
  /\ table_remove fuel k
       (live cmp kf vf (kept cmp k l) (tr ++ remove_trace cmp kf vf k l))
     = Done tt
         (live cmp kf vf (kept cmp k l)
               ((tr ++ remove_trace cmp kf vf k l)
                  ++ map (fun e => CmpCall (key e) k) (kept cmp k l))).
Proof.
  intros Hfuel. split; [now apply table_remove_live|].
  rewrite table_remove_live by (pose proof (kept_length cmp k l); lia).
  rewrite (remove_trace_no_match cmp kf vf k (kept cmp k l))
    by (intros e; apply kept_no_match).
  rewrite (kept_all cmp k (kept cmp k l)) by (intros e; apply kept_no_match).
  reflexivity.
Qed.

Lemma table_remove_idempotent_witness :
  table_remove 3 7%Z
    (live Z.sub true true [mk_entry 2 20]%Z
          [CmpCall 7 7; KeyFree 7; ValueFree 10; EntryFree (mk_entry 7 10);
           CmpCall 2 7]%Z)
  = Done tt
      (live Z.sub true true [mk_entry 2 20]%Z
            [CmpCall 7 7; KeyFree 7; ValueFree 10; EntryFree (mk_entry 7 10);
             CmpCall 2 7; CmpCall 2 7]%Z).
Proof.
  refine (proj2 (@table_remove_idempotent Z.sub true true
                   [mk_entry 7 10; mk_entry 2 20]%Z 7%Z 3 [] _)).
  cbn [length]. lia.
Defined.

(** X8. A remove does not disturb other keys: when no entry compares
    equal to both the key removed and the key looked up, [table_lookup]
    after the remove returns what it returned before. *)
Theorem remove_keeps_other_lookups (cmp : ptr -> ptr -> Z) (kf vf : bool)
        (l : list table_entry) (k q : ptr) (fuel : nat) (tr : trace) :
  length l < fuel ->
  (forall e, In e l -> cmp (key e) k = 0%Z -> cmp (key e) q <> 0%Z) ->
  exists (r : ptr) (tr1 tr2 : trace),
    table_lookup fuel q (live cmp kf vf l tr)
    = Done r (live cmp kf vf l tr1)
    /\ (table_remove fuel k;; table_lookup fuel q) (live cmp kf vf l tr)
       = Done r (live cmp kf vf (kept cmp k l) tr2).
Proof.
  intros Hfuel Hsep. exists (found cmp q l). eexists. eexists. split.
  - now apply table_lookup_live.
  - erewrite bind_done by (apply table_remove_live; exact Hfuel).
    rewrite table_lookup_live by (pose proof (kept_length cmp k l); lia).
    now rewrite found_kept.
Qed.

Lemma remove_keeps_other_lookups_witness :
  exists (r : ptr) (tr1 tr2 : trace),
    table_lookup 4 2%Z
      (live Z.sub true true
            [mk_entry 7 10; mk_entry 2 20; mk_entry 7 30]%Z [])
    = Done r (live Z.sub true true
                   [mk_entry 7 10; mk_entry 2 20; mk_entry 7 30]%Z tr1)
    /\ (table_remove 4 7;; table_lookup 4 2)%Z
         (live Z.sub true true
               [mk_entry 7 10; mk_entry 2 20; mk_entry 7 30]%Z [])
       = Done r (live Z.sub true true
                      (kept Z.sub 7%Z
                            [mk_entry 7 10; mk_entry 2 20; mk_entry 7 30]%Z)
                      tr2).
Proof.
  refine (@remove_keeps_other_lookups Z.sub true true
            [mk_entry 7 10; mk_entry 2 20; mk_entry 7 30]%Z 7%Z 2%Z 4 [] _ _).
  - cbn [length]. lia.
  - intros e [<-|[<-|[<-|[]]]]; cbn; lia.
Defined.

(** X9. Insert then remove: a [table_remove] with a key that the key
    just inserted compares equal to destroys the new pair first (key
    destructor, value destructor, node) and then treats the older
    entries as a remove on the table before the insert would; when none
    of them matches, the table is back to the entries it had. *)
Theorem insert_remove_round_trip (cmp : ptr -> ptr -> Z) (kf vf : bool)
        (l : list table_entry) (k v q : ptr) (fuel : nat) (tr : trace) :
  S (length l) < fuel ->
  cmp k q = 0%Z ->
  (table_insert k v;; table_remove fuel q) (live cmp kf vf l tr)
  = Done tt
      (live cmp kf vf (kept cmp q l)
            (tr ++ (CmpCall k q
                      :: free_events kf vf {| key := k; value := v |}
                      ++ [EntryFree {| key := k; value := v |}])
                ++ remove_trace cmp kf vf q l))
  /\ ((forall e, In e l -> cmp (key e) q <> 0%Z) -> kept cmp q l = l).
Proof.
  intros Hfuel Hc. split; [|apply kept_all].
  step_with table_insert_live.
  rewrite table_remove_live by (cbn [length]; lia).
  assert (Hm : matches cmp q {| key := k; value := v |} = true)
    by now apply matches_true_iff.
  unfold kept, remove_trace. cbn [filter flat_map].
  unfold remove_events at 1. rewrite Hm. reflexivity.
Qed.

Lemma insert_remove_round_trip_witness :
  (table_insert 7 70;; table_remove 3 7)%Z
    (live Z.sub true true [mk_entry 2 20]%Z [])
  = Done tt
      (live Z.sub true true [mk_entry 2 20]%Z
            [CmpCall 7 7; KeyFree 7; ValueFree 70; EntryFree (mk_entry 7 70);
             CmpCall 2 7]%Z).
Proof.
  refine (proj1 (@insert_remove_round_trip Z.sub true true
                   [mk_entry 2 20]%Z 7%Z 70%Z 7%Z 3 [] _ _)).
  - cbn [length]. lia.
  - reflexivity.
Defined.

(** X10. After [table_remove] of a key the table is empty exactly when
    every entry it held had a key comparing equal to that key. *)
Theorem remove_empties_iff_all_match (cmp : ptr -> ptr -> Z) (kf vf : bool)
        (l : list table_entry) (k : ptr) (fuel : nat) (tr : trace) :
  length l < fuel ->
  exists (b : bool) (w' : world trace),
    (table_remove fuel k;; table_is_empty) (live cmp kf vf l tr) = Done b w'
    /\ (b = true <-> forall e, In e l -> cmp (key e) k = 0%Z).
Proof.
  intros Hfuel. eexists. eexists. split.
  - erewrite bind_done by (apply table_remove_live; exact Hfuel).
    apply table_is_empty_live.
  - rewrite <- kept_nil_iff. now destruct (kept cmp k l).
Qed.

Lemma remove_empties_iff_all_match_witness :
  exists (b : bool) (w' : world trace),
    (table_remove 3 7%Z;; table_is_empty)
      (live Z.sub true true [mk_entry 7 10; mk_entry 2 20]%Z [])
    = Done b w'
    /\ (b = true
        <-> forall e, In e [mk_entry 7 10; mk_entry 2 20]%Z
                      -> Z.sub (key e) 7 = 0%Z).
Proof.
  refine (@remove_empties_iff_all_match Z.sub true true
            [mk_entry 7 10; mk_entry 2 20]%Z 7%Z 3 [] _).
  cbn [length]. lia.
Defined.



(* ------------------------------------------------------------------ *)
(** ** Whole lifetimes of a table *)


Section Lifetime.

Variable cmp : ptr -> ptr -> Z.
Variables kf vf : bool.









(** In a list ordered newest first, the first match is the newest one. *)
Lemma found_newest (k : ptr) (st : list (nat * table_entry)) :
  StronglySorted newer st ->
  (exists i e,
      In (i, e) st /\ cmp (key e) k = 0%Z
      /\ found cmp k (map snd st) = value e
      /\ forall j e', In (j, e') st -> cmp (key e') k = 0%Z -> j <= i)
  \/ (found cmp k (map snd st) = NULL
      /\ forall j e', In (j, e') st -> cmp (key e') k <> 0%Z).
Proof.
  induction 1 as [|[i e] st Hs IH Hall]; cbn [map snd].
  - right. split; [reflexivity|]. intros j e' [].
  - rewrite found_cons. destruct (matches cmp k e) eqn:Hm.
    + left. exists i, e. split; [now left|].
      split; [now apply Z.eqb_eq|]. split; [reflexivity|].
      intros j e' [Heq|Hin] _.
      * injection Heq as -> _. lia.
      * rewrite Forall_forall in Hall. specialize (Hall _ Hin).
        unfold newer in Hall. cbn [fst] in Hall. lia.
    + destruct IH as [(i' & e' & Hin & Hc & Hf & Hmax)|[Hf Hno]].
      * left. exists i', e'. split; [now right|].
        split; [assumption|]. split; [assumption|].
        intros j e'' [Heq|Hin'] Hc'.
        -- injection Heq as <- <-. apply Z.eqb_neq in Hm. contradiction.
        -- now apply (Hmax j e'').
      * right. split; [assumption|].
        intros j e' [Heq|Hin].
        -- injection Heq as <- <-. now apply Z.eqb_neq.
        -- now apply (Hno j e').
Qed.

End Lifetime.



(** X13. Lookup after any history: on a table created and used by
    inserts and removes, [table_lookup] returns the value of the most
    recent insert that has not been removed since and whose key compares
    equal to the argument, and [NULL] when there is no such insert. *)
Theorem table_lookup_after_history (cmp : ptr -> ptr -> Z) (kf vf : bool)
        (ops : list op) (k : ptr) (fuel : nat) (w : world trace) :
  length ops < fuel ->
  exists (r : ptr) (w' : world trace),
    (create cmp kf vf;; run_ops fuel ops;; table_lookup fuel k) w = Done r w'
    /\ ((exists i e,
            survives cmp ops i e /\ cmp (key e) k = 0%Z /\ r = value e
            /\ forall j e', survives cmp ops j e' ->
                            cmp (key e') k = 0%Z -> j <= i)
        \/ (r = NULL
            /\ forall i e, survives cmp ops i e -> cmp (key e) k <> 0%Z)).
Proof.
  intros Hfuel.
  destruct (apply_ops_history cmp ops)
    as (st & Hmap & Hall & Hsort & Hcomplete).
  exists (found cmp k (apply_ops cmp [] ops)). eexists. split.
  - step_with create_live.
    erewrite bind_done by (apply run_ops_live; exact Hfuel).
    apply table_lookup_live.
    pose proof (apply_ops_length cmp ops []). cbn [length] in *. lia.
  - rewrite <- Hmap. rewrite Forall_forall in Hall.
    destruct (found_newest cmp k Hsort)
      as [(i & e & Hin & Hc & Hf & Hmax)|[Hf Hno]].
    + left. exists i, e. split; [exact (Hall _ Hin)|].
      split; [assumption|]. split; [assumption|].
      intros j e' Hs. apply Hmax. now apply Hcomplete.
    + right. split; [assumption|].
      intros i e Hs. apply (Hno i e). now apply Hcomplete.
Qed.

Lemma table_lookup_after_history_witness :
  exists (r : ptr) (w' : world trace),
    (create Z.sub true true;;
     run_ops 5 [Insert 7 10; Insert 7 20; Remove 7; Insert 7 30]%Z;;
     table_lookup 5 7%Z) (destroyed [])
    = Done r w'
    /\ ((exists i e,
            survives Z.sub [Insert 7 10; Insert 7 20; Remove 7; Insert 7 30]%Z
                     i e
            /\ Z.sub (key e) 7 = 0%Z /\ r = value e
            /\ forall j e',
                survives Z.sub
                         [Insert 7 10; Insert 7 20; Remove 7; Insert 7 30]%Z
                         j e' ->
                Z.sub (key e') 7 = 0%Z -> j <= i)
        \/ (r = NULL
            /\ forall i e,
                survives Z.sub
                         [Insert 7 10; Insert 7 20; Remove 7; Insert 7 30]%Z
                         i e ->
                Z.sub (key e) 7 <> 0%Z)).
Proof.
  refine (@table_lookup_after_history Z.sub true true
            [Insert 7 10; Insert 7 20; Remove 7; Insert 7 30]%Z 7%Z 5
            (destroyed []) _).
  cbn [length]. lia.
Defined.

(* ------------------------------------------------------------------ *)
(** ** Operations that commute *)

Section Commuting.

Variable cmp : ptr -> ptr -> Z.

Lemma kept_kept_comm (k1 k2 : ptr) (l : list table_entry) :
  kept cmp k2 (kept cmp k1 l) = kept cmp k1 (kept cmp k2 l).
Proof.
  unfold kept. induction l as [|x l IH]; [reflexivity|]. cbn [filter].
  destruct (matches cmp k1 x) eqn:H1, (matches cmp k2 x) eqn:H2;
    cbn [negb filter]; rewrite ?H1, ?H2; cbn [negb];
    now rewrite IH.
Qed.

End Commuting.

(** X14. [table_insert] calls nothing: over any sequence of inserts on
    any table, neither the comparison nor a destructor is called, also
    for keys already present, and every insert adds one entry in front
    of the ones before it. *)
Theorem inserts_call_nothing (cmp : ptr -> ptr -> Z) (kf vf : bool)
        (l : list table_entry) (kvs : list (ptr * ptr)) (fuel : nat)
        (tr : trace) :
  run_ops fuel (map insert_of kvs) (live cmp kf vf l tr)
  = Done tt (live cmp kf vf (rev (map entry_of kvs) ++ l) tr)
  /\ length (rev (map entry_of kvs) ++ l) = length kvs + length l.
Proof.
  split.
  - revert l. induction kvs as [|kv kvs IH]; intros l; [reflexivity|].
    cbn [map run_ops]. unfold insert_of at 1. cbn [run_op].
    step_with table_insert_live. rewrite IH.
    cbn [rev map]. now rewrite app_snoc_cons.
  - now rewrite length_app, length_rev, length_map.
Qed.

(** X15. Removes commute: removing two keys in either order leaves the
    same entries in the same order. *)
Theorem removes_commute (cmp : ptr -> ptr -> Z) (kf vf : bool)
        (l : list table_entry) (k1 k2 : ptr) (fuel : nat) (tr : trace) :
  length l < fuel ->
  exists (l' : list table_entry) (tr1 tr2 : trace),
    (table_remove fuel k1;; table_remove fuel k2) (live cmp kf vf l tr)
    = Done tt (live cmp kf vf l' tr1)
    /\ (table_remove fuel k2;; table_remove fuel k1) (live cmp kf vf l tr)
       = Done tt (live cmp kf vf l' tr2).
Proof.
  intros Hfuel. exists (kept cmp k2 (kept cmp k1 l)). eexists. eexists.
  split.
  - erewrite bind_done by (apply table_remove_live; exact Hfuel).
    apply table_remove_live. pose proof (kept_length cmp k1 l). lia.
  - erewrite bind_done by (apply table_remove_live; exact Hfuel).
    rewrite kept_kept_comm.
    apply table_remove_live. pose proof (kept_length cmp k2 l). lia.
Qed.

Lemma removes_commute_witness :
  exists (l' : list table_entry) (tr1 tr2 : trace),
    (table_remove 4 7;; table_remove 4 2)%Z
      (live Z.sub true true
            [mk_entry 7 10; mk_entry 2 20; mk_entry 5 50]%Z [])
    = Done tt (live Z.sub true true l' tr1)
    /\ (table_remove 4 2;; table_remove 4 7)%Z
         (live Z.sub true true
               [mk_entry 7 10; mk_entry 2 20; mk_entry 5 50]%Z [])
       = Done tt (live Z.sub true true l' tr2).
Proof.
  refine (@removes_commute Z.sub true true
            [mk_entry 7 10; mk_entry 2 20; mk_entry 5 50]%Z 7%Z 2%Z 4 [] _).
  cbn [length]. lia.
Defined.

(** X16. An insert and a remove of a key that the inserted key does not
    compare equal to commute: both orders leave the new entry in front
    of the entries the remove keeps. *)
Theorem insert_remove_commute (cmp : ptr -> ptr -> Z) (kf vf : bool)
        (l : list table_entry) (k v q : ptr) (fuel : nat) (tr : trace) :
  S (length l) < fuel ->
  cmp k q <> 0%Z ->
  exists (tr1 tr2 : trace),
    (table_insert k v;; table_remove fuel q) (live cmp kf vf l tr)
    = Done tt (live cmp kf vf ({| key := k; value := v |} :: kept cmp q l) tr1)
    /\ (table_remove fuel q;; table_insert k v) (live cmp kf vf l tr)
       = Done tt
           (live cmp kf vf ({| key := k; value := v |} :: kept cmp q l) tr2).
Proof.
  intros Hfuel Hc. eexists. eexists. split.
  - step_with table_insert_live.
    rewrite table_remove_live by (cbn [length]; lia).
    assert (Hm : matches cmp q {| key := k; value := v |} = false)
      by now apply Z.eqb_neq.
    unfold kept. cbn [filter]. rewrite Hm. reflexivity.
  - erewrite bind_done by (apply table_remove_live; lia).
    apply table_insert_live.
Qed.

Lemma insert_remove_commute_witness :
  exists (tr1 tr2 : trace),
    (table_insert 9 90;; table_remove 4 7)%Z
      (live Z.sub true true [mk_entry 7 10; mk_entry 2 20]%Z [])
    = Done tt (live Z.sub true true [mk_entry 9 90; mk_entry 2 20]%Z tr1)
    /\ (table_remove 4 7;; table_insert 9 90)%Z
         (live Z.sub true true [mk_entry 7 10; mk_entry 2 20]%Z [])
       = Done tt (live Z.sub true true [mk_entry 9 90; mk_entry 2 20]%Z tr2).
Proof.
  refine (@insert_remove_commute Z.sub true true
            [mk_entry 7 10; mk_entry 2 20]%Z 9%Z 90%Z 7%Z 4 [] _ _).
  - cbn [length]. lia.
  - cbn. lia.
Defined.
